(** * startup-name-generator: a shallow embedding of [generate.py]

    The script builds a character vocabulary from a word list, encodes the
    words as one-hot tensors, trains (or loads) a Keras model and samples
    new words from it.  This file embeds the script's own code: the
    vocabulary (line 62, 75-76), the tensor encoder (78-91), [temp_scale]
    (104-109), [generate_word] (112-149), [on_epoch_end] (152-154) and the
    top-level control flow (159-174).

    Conventions.
    - A Python [str] is a list of Unicode code points ([N]).
    - A NumPy float is an exact real or one of the special values
      [+inf], [-inf], [nan].  Rounding and the sign of zero are not part
      of the model.  [np.exp] is a parameter of [temp_scale] and of the
      generator.  [Np.exp] is the exponential of exact arithmetic; it is
      used where a statement is about exact arithmetic and where only
      [-inf] and [nan] reach it.  Of a floating-point [np.exp] the
      statements assume what they need: that it is zero below a cut
      ([Np.flushes_below]), or that what [temp_scale] computes with it is
      a distribution ([sampled]).
    - [np.random.choice] reads its outcomes from a tape held in the
      program state.
    - Keras, [preprocess.text_to_words] and [str.upper] are parameters. *)

From Stdlib Require Import Reals Lra Lia.
From stdpp Require Import gmap list sorting.

Set Default Proof Using "Type".

(** ** NumPy floating-point values *)

Module Np.

Inductive float : Type :=
  | Fin (r : R)
  | PInf
  | NInf
  | NaN.

#[global] Instance float_inhabited : Inhabited float := populate (Fin 0).

#[global] Instance Rlt_decision (x y : R) : Decision (x < y)%R := Rlt_dec x y.
#[global] Instance Rle_decision (x y : R) : Decision (x <= y)%R := Rle_dec x y.
#[global] Instance Req_decision : EqDecision R := Req_dec_T.

(** [np.log]: [log 0 = -inf] (with a warning only), [log] of a negative
    number is [nan]. *)
Definition log (x : float) : float :=
  match x with
  | Fin r => if decide (0 < r)%R then Fin (ln r)
             else if decide (r = 0)%R then NInf else NaN
  | PInf => PInf
  | NInf => NaN
  | NaN => NaN
  end.

(** [np.exp] over exact arithmetic, with [exp (-inf) = 0].  It neither
    rounds nor leaves the range of the finite numbers. *)
Definition exp (x : float) : float :=
  match x with
  | Fin r => Fin (Rtrigo_def.exp r)
  | PInf => PInf
  | NInf => Fin 0
  | NaN => NaN
  end.

(** What a floating-point [np.exp] does at the low end: it is [0.0] at
    [-inf] and at every argument below a cut that depends on the format,
    where [e^r] is less than half the least positive number (the cut is
    about -745.13 for binary64 and about -103.97 for float32).  Nothing
    is said of the arguments from the cut on. *)
Definition flushes_below (cut : R) (np_exp : float → float) : Prop :=
  np_exp NInf = Fin 0 ∧ ∀ r, (r < cut)%R → np_exp (Fin r) = Fin 0.

(** Sign of an infinite quotient [x / r] for finite [r <> 0]. *)
Definition inf_over (positive : bool) (r : R) : float :=
  if decide (0 < r)%R then (if positive then PInf else NInf)
  else if decide (r = 0)%R then (if positive then PInf else NInf)
  else (if positive then NInf else PInf).

(** IEEE division as NumPy performs it (no exception, only warnings). *)
Definition div (x y : float) : float :=
  match x, y with
  | NaN, _ | _, NaN => NaN
  | Fin a, Fin b =>
      if decide (b = 0)%R then
        (if decide (0 < a)%R then PInf
         else if decide (a = 0)%R then NaN else NInf)
      else Fin (a / b)
  | Fin _, (PInf | NInf) => Fin 0
  | PInf, Fin b => inf_over true b
  | NInf, Fin b => inf_over false b
  | (PInf | NInf), (PInf | NInf) => NaN
  end.

Definition add (x y : float) : float :=
  match x, y with
  | NaN, _ | _, NaN => NaN
  | Fin a, Fin b => Fin (a + b)
  | PInf, NInf | NInf, PInf => NaN
  | PInf, _ | _, PInf => PInf
  | NInf, _ | _, NInf => NInf
  end.

(** [np.sum] of a one-dimensional array. *)
Definition sum (xs : list float) : float := foldl add (Fin 0) xs.

(** What [np.random.choice(n, p=p)] accepts as [p]: [n] entries, none of
    them [nan] or negative, adding up to one. *)
Definition nonneg (x : float) : Prop :=
  match x with Fin r => (0 <= r)%R | _ => False end.

#[global] Instance nonneg_dec x : Decision (nonneg x).
Proof. destruct x; simpl; apply _. Defined.

#[global] Instance float_eq_dec : EqDecision float.
Proof. solve_decision. Defined.

Definition distribution (n : nat) (p : list float) : Prop :=
  0 < n ∧ length p = n ∧ Forall nonneg p ∧ sum p = Fin 1.

#[global] Instance distribution_dec n p : Decision (distribution n p).
Proof. unfold distribution. apply _. Defined.

End Np.

(** ** The temperature sampler (generate.py, 104-109) *)

(** [np_exp] is [np.exp]: [Np.exp] in exact arithmetic. *)
Definition temp_scale (np_exp : Np.float → Np.float)
    (probs : list Np.float) (temperature : Np.float) : list Np.float :=
  let probs := map (λ p, np_exp (Np.div (Np.log p) temperature)) probs in
  let probs := map (λ p, Np.div p (Np.sum probs)) probs in
  probs.

(** Sum of a list of reals, and the embedding of real vectors. *)
Definition Rsum (xs : list R) : R := foldr Rplus 0%R xs.
Definition fin (xs : list R) : list Np.float := map Np.Fin xs.

(** A probability vector over the reals: non-negative entries of sum 1. *)
Definition probability_vector (p : list R) : Prop :=
  Forall (λ x, (0 <= x)%R) p ∧ Rsum p = 1%R.

(** [p ** (1/t)], the entry-wise effect of the first line of [temp_scale]
    on a non-negative real. *)
Definition sharpen (t x : R) : R :=
  if decide (0 < x)%R then Rtrigo_def.exp (ln x / t) else 0%R.

(** ** Python values and exceptions *)

(** A character is a Unicode code point, a [str] a list of them. *)
Abbreviation char := N (only parsing).
Abbreviation str := (list N) (only parsing).
Definition newline : char := 10%N.

Inductive exn : Type :=
  | KeyError
  | IndexError
  | ValueError
  | OSError.

(** Pure code that may raise. *)
Definition except (A : Type) : Type := exn + A.

Definition ebind {A B} (m : except A) (f : A → except B) : except B :=
  match m with inl e => inl e | inr a => f a end.

#[global] Instance except_ret : MRet except := λ A a, inr a.
#[global] Instance except_bind : MBind except := λ A B f m, ebind m f.

(** [l[i]] for a non-negative index, and [d[k]] for a dictionary. *)
Definition getitem {A} (l : list A) (i : nat) : except A :=
  match l !! i with Some a => inr a | None => inl IndexError end.

Definition dict_get `{Countable K} {V} (d : gmap K V) (k : K) : except V :=
  match d !! k with Some v => inr v | None => inl KeyError end.

(** A dictionary comprehension inserts its pairs from left to right. *)
Definition dict_of `{Countable K} {V} (kvs : list (K * V)) : gmap K V :=
  foldl (λ d kv, <[kv.1 := kv.2]> d) ∅ kvs.

Definition enumerate {A} (l : list A) : list (nat * A) :=
  zip (seq 0 (length l)) l.

(** [for i in range(n): s = body(i, s)], stopping at the first exception. *)
Fixpoint for_each {S} (ixs : list nat) (body : nat → S → except S) (s : S)
  : except S :=
  match ixs with
  | [] => inr s
  | i :: ixs => ebind (body i s) (for_each ixs body)
  end.

Definition for_range {S} (n : nat) (body : nat → S → except S) (s : S)
  : except S :=
  for_each (seq 0 n) body s.

(** ** The vocabulary (generate.py, 62 and 75-76) *)

(** [sorted(list(set(l)))]; a [set] iterates in an order of its own, which
    [elements] stands for, and [sorted] orders code points. *)
Definition py_sorted (l : list char) : list char := merge_sort N.le l.

Definition chars (words : list str) : list char :=
  py_sorted (elements (list_to_set (concat words) : gset char)).

Definition ix_to_char (chars : list char) : gmap nat char :=
  dict_of (enumerate chars).

Definition char_to_ix (chars : list char) : gmap char nat :=
  dict_of (prod_swap <$> enumerate chars).

Definition MAX_WORD_LEN : nat := 12.

(** ** Tensors and the encoder (generate.py, 78-91) *)

(** A rank-3 array as nested lists, indexed [word, timestep, character]. *)
Abbreviation tensor A := (list (list (list A))) (only parsing).

Definition zeros (n l v : nat) : tensor Z :=
  replicate n (replicate l (replicate v 0%Z)).

(** [T[i, j, k] = x]; an index out of range raises [IndexError]. *)
Definition setitem {A} (T : tensor A) (i j k : nat) (x : A)
  : except (tensor A) :=
  m ← getitem T i;
  r ← getitem m j;
  if decide (k < length r)
  then mret (<[i := <[j := <[k := x]> r]> m]> T)
  else inl IndexError.

(** The body of the inner loop, lines 87-91. *)
Definition encode_char (c2i : gmap char nat) (word_i : nat) (word : str)
    (char_j : nat) (XY : tensor Z * tensor Z) : except (tensor Z * tensor Z) :=
  char ← getitem word char_j;
  char_ix ← dict_get c2i char;
  X ← setitem XY.1 word_i char_j char_ix 1%Z;
  Y ← (if decide (0 < char_j)
       then setitem XY.2 word_i (char_j - 1) char_ix 1%Z
       else mret XY.2);
  mret (X, Y).

(** The body of the outer loop, lines 82-91. *)
Definition encode_word (c2i : gmap char nat) (words : list str)
    (word_i : nat) (XY : tensor Z * tensor Z) : except (tensor Z * tensor Z) :=
  word ← getitem words word_i;
  for_range (length word `min` MAX_WORD_LEN) (encode_char c2i word_i word) XY.

(** Lines 64-65 and 75-91: the tensors [(X, Y)] of a word list. *)
Definition encode (words : list str) : except (tensor Z * tensor Z) :=
  let cs := chars words in
  let VOCAB_SIZE := length cs in
  let N_WORDS := length words in
  let c2i := char_to_ix cs in
  let X := zeros N_WORDS MAX_WORD_LEN VOCAB_SIZE in
  let Y := zeros N_WORDS MAX_WORD_LEN VOCAB_SIZE in
  for_range N_WORDS (encode_word c2i words) (X, Y).

(** Reading a one-hot row back: the position of its first non-zero entry,
    then the character at that index. *)
Fixpoint hot (row : list Z) : option nat :=
  match row with
  | [] => None
  | x :: row => if decide (x = 0%Z) then S <$> hot row else Some 0
  end.

Definition decode_row (i2c : gmap nat char) (row : list Z) : option char :=
  ix ← hot row; i2c !! ix.

Definition decode_rows (i2c : gmap nat char) (rows : list (list Z))
  : list (option char) :=
  decode_row i2c <$> rows.

(** ** Program state: random outcomes, standard output, Keras calls *)

(** What the script prints. *)
Inductive output : Type :=
  | PrintCorpus (n_words : nat) (vocabulary : list char) (sample : list str)
      (* lines 69-73, under [--verbose] *)
  | PrintStuck  (* lines 138-139, "caught in a near-infinite loop. ..." *)
  | PrintEpoch (epoch : nat) (word : str)  (* line 154 *)
  | PrintWord (word : str).  (* line 174 *)

(** The Keras calls that train, store or restore a model, and the epochs
    that [fit] goes through. *)
Inductive call : Type :=
  | Fit (batch_size epochs : nat)
  | TrainEpoch (epoch : nat)
  | Save (path : str)
  | Load (path : str).

Record world : Type := World {
  rng : list nat;  (* outcomes of the coming [np.random.choice] calls *)
  stdout : list output;  (* printed so far, oldest first *)
  keras : list call;  (* calls made so far, oldest first *)
}.

(** A run ends with a value, with an exception, or waiting for a random
    outcome that the tape does not hold. *)
Inductive outcome (A : Type) : Type :=
  | Done (a : A) (w : world)
  | Raised (e : exn) (w : world)
  | Starved (w : world).
Arguments Done {A} a w.
Arguments Raised {A} e w.
Arguments Starved {A} w.

Definition M (A : Type) : Type := world → outcome A.

#[global] Instance M_ret : MRet M := λ A a w, Done a w.
#[global] Instance M_bind : MBind M := λ A B f m w,
  match m w with
  | Done a w' => f a w'
  | Raised e w' => Raised e w'
  | Starved w' => Starved w'
  end.

Definition raise {A} (e : exn) : M A := λ w, Raised e w.

Definition lift {A} (m : except A) : M A :=
  match m with inl e => raise e | inr a => mret a end.

Definition print (o : output) : M unit := λ w,
  Done () (World (rng w) (stdout w ++ [o]) (keras w)).

Definition record (c : call) : M unit := λ w,
  Done () (World (rng w) (stdout w) (keras w ++ [c])).

(** The state a run ends in, whatever the way it ends. *)
Definition final {A} (o : outcome A) : world :=
  match o with Done _ w | Raised _ w | Starved w => w end.

Definition positive (x : Np.float) : Prop :=
  match x with Np.Fin r => (0 < r)%R | _ => False end.

#[global] Instance positive_dec x : Decision (positive x).
Proof. destruct x; simpl; apply _. Defined.

(** [np.random.choice(n, size=1, p=p)] converted with [int]: [ValueError]
    unless [p] is a distribution over [n] outcomes; otherwise the next
    outcome on the tape, which is an index below [n] of non-zero
    probability. *)
Definition np_random_choice (n : nat) (p : list Np.float) : M nat := λ w,
  if decide (Np.distribution n p) then
    match rng w with
    | [] => Starved w
    | ix :: tape =>
        if decide (ix < n ∧ positive (p !!! ix))
        then Done ix (World tape (stdout w) (keras w))
        else Starved w
    end
  else Raised ValueError w.

(** The same draw without the inspection of [p]. *)
Definition tape_choice (n : nat) (p : list Np.float) : M nat := λ w,
  match rng w with
  | [] => Starved w
  | ix :: tape =>
      if decide (ix < n)
      then Done ix (World tape (stdout w) (keras w))
      else Starved w
  end.

(** The command line (generate.py, 15-32). *)
Record arguments : Type := Arguments {
  wordlist : str;
  savepath : option str;
  modelpath : option str;
  temperature : Np.float;
  nwords : Z;
  epochs : Z;
  verbose : bool;
}.

Definition NUM_EPOCHS : nat := 500.
Definition BATCH_SIZE : nat := 64.

(** ** The generator and the script, over Keras *)

Section script.

(** [np.exp] and the sampler; [np_random_choice] in the script itself. *)
Variable np_exp : Np.float → Np.float.
Variable choice : nat → list Np.float → M nat.

(** [str.upper]. *)
Variable upper : str → str.

(** A Keras model: its forward pass, one epoch of [fit] over mini-batches
    of [(X, Y)], the model that lines 96-102 build for a vocabulary size,
    and [keras.models.load_model]. *)
Variable model : Type.
Variable predict : model → tensor Z → tensor Np.float.
Variable train_epoch : model → tensor Z → tensor Z → nat → model.
Variable Sequential : nat → model.
Variable load_model : str → except model.

(** [preprocess.text_to_words]. *)
Variable text_to_words : str → list str.

Section globals.

(** The globals that [generate_word] reads: lines 64 and 75. *)
Variable VOCAB_SIZE : nat.
Variable i2c : gmap nat char.

(** Line 119-120: draw until the index is not 0.  Every turn takes an
    outcome from the tape, so its length bounds the turns this model can
    follow. *)
Fixpoint first_index (turns : nat) (p : list Np.float) : M nat :=
  match turns with
  | 0 => Starved
  | S turns =>
      ix ← choice VOCAB_SIZE p;
      if decide (ix = 0) then first_index turns p else mret ix
  end.

(** Lines 133-140, entered with [ix_choice] and [ctr]; [turns] bounds the
    turns as in [first_index]. *)
Fixpoint resample (turns : nat) (i min_word_length : nat)
    (p : list Np.float) (ix_choice ctr : nat) : M nat :=
  if decide (ix_choice = 0 ∧ i < min_word_length) then
    match turns with
    | 0 => Starved
    | S turns =>
        let ctr := ctr + 1 in
        ix_choice ← choice VOCAB_SIZE p;
        if decide (1000 < ctr)
        then print PrintStuck;; mret ix_choice
        else resample turns i min_word_length p ix_choice ctr
    end
  else mret ix_choice.

Definition turns_left : M nat := λ w, Done (S (length (rng w))) w.

(** [out[:, t, :].flatten()] *)
Definition at_time (out : tensor Np.float) (t : nat) : except (list Np.float) :=
  rows ← mapM (λ m, getitem m t) out; mret (concat rows).

(** Lines 127-143: the index accepted at position [i]. *)
Definition next_index (m : model) (temperature : Np.float)
    (min_word_length : nat) (X : tensor Z) (i : nat) : M nat :=
  row ← lift (at_time (predict m (take i <$> X)) (i - 1));
  let next_char_distribution := temp_scale np_exp row temperature in
  ix_choice ← choice VOCAB_SIZE next_char_distribution;
  turns ← turns_left;
  resample turns i min_word_length next_char_distribution ix_choice 0.

(** Lines 126-147: the loop over the positions [ixs] still to fill. *)
Fixpoint sample_rest (m : model) (temperature : Np.float)
    (min_word_length : nat) (ixs : list nat) (X : tensor Z)
    (generated_word : list str) : M (list str) :=
  match ixs with
  | [] => mret generated_word
  | i :: ixs =>
      next_ix ← next_index m temperature min_word_length X i;
      X ← lift (setitem X 0 i next_ix 1%Z);
      if decide (next_ix = 0) then mret generated_word
      else
        c ← lift (dict_get i2c next_ix);
        sample_rest m temperature min_word_length ixs X
          (generated_word ++ [[c]])
  end.

(** Lines 112-149. *)
Definition generate_word (m : model) (temperature : Np.float)
    (min_word_length : nat) : M str :=
  let X := zeros 1 MAX_WORD_LEN VOCAB_SIZE in
  let initial_char_distribution :=
    temp_scale np_exp (concat (concat (predict m (take 1 <$> X))))
      temperature in
  turns ← turns_left;
  ix ← first_index turns initial_char_distribution;
  X ← lift (setitem X 0 0 ix 1%Z);
  c ← lift (dict_get i2c ix);
  let generated_word := [upper [c]] in
  generated_word ← sample_rest m temperature min_word_length
    (seq 1 (MAX_WORD_LEN - 1)) X generated_word;
  mret (concat generated_word).

(** Lines 152-154; [m] is the global [model] at the time of the call. *)
Definition on_epoch_end (args : arguments) (m : model) (epoch : nat) : M unit :=
  if bool_decide (epoch `mod` 50 = 0) && verbose args then
    word ← generate_word m (Np.Fin 1) 4;
    print (PrintEpoch epoch word)
  else mret ().

(** [model.fit(X, Y, batch_size, epochs, callbacks=[print_callback])]: an
    epoch trains on every mini-batch, then runs the callback. *)
Fixpoint fit_epochs (args : arguments) (X Y : tensor Z) (batch_size : nat)
    (epochs : list nat) (m : model) : M model :=
  match epochs with
  | [] => mret m
  | epoch :: epochs =>
      record (TrainEpoch epoch);;
      let m := train_epoch m X Y batch_size in
      on_epoch_end args m epoch;;
      fit_epochs args X Y batch_size epochs m
  end.

Definition fit (args : arguments) (m : model) (X Y : tensor Z)
    (batch_size epochs : nat) : M model :=
  record (Fit batch_size epochs);;
  fit_epochs args X Y batch_size (seq 0 epochs) m.

(** Lines 173-174, for [n] words. *)
Fixpoint print_words (m : model) (temperature : Np.float) (n : nat) : M unit :=
  match n with
  | 0 => mret ()
  | S n =>
      word ← generate_word m temperature 4;
      print (PrintWord word);;
      print_words m temperature n
  end.

End globals.

(** The script from line 58 on. *)
Definition main (args : arguments) : M unit :=
  let words := text_to_words (wordlist args) in
  let cs := chars words in
  let VOCAB_SIZE := length cs in
  let N_WORDS := length words in
  (if verbose args
   then print (PrintCorpus N_WORDS cs (take 2 words))
   else mret ());;
  let i2c := ix_to_char cs in
  XY ← lift (encode words);
  let m := Sequential VOCAB_SIZE in
  m ← match modelpath args with
      | Some path =>
          record (Load path);;
          lift (load_model path)
      | None =>
          m ← fit VOCAB_SIZE i2c args m XY.1 XY.2 BATCH_SIZE NUM_EPOCHS;
          match savepath args with
          | Some path => record (Save path)
          | None => mret ()
          end;;
          mret m
      end;
  print_words VOCAB_SIZE i2c m (temperature args) (Z.to_nat (nwords args)).

End script.

(** ** A small instance to run the script on *)

(** [str.upper] on code points below 256 (ASCII and Latin-1): the letters
    move to their capitals, [ß] becomes [SS], and [µ] and [ÿ] leave the
    range.  Other code points are left as they are. *)
Definition upper_char (c : char) : str :=
  if decide (97 ≤ c ≤ 122)%N then [c - 32]%N
  else if decide (c = 181)%N then [924]%N
  else if decide (c = 223)%N then [83; 83]%N
  else if decide (224 ≤ c ≤ 254 ∧ c ≠ 247)%N then [c - 32]%N
  else if decide (c = 255)%N then [376]%N
  else [c].

Definition latin1_upper (s : str) : str := c ← s; upper_char c.

(** A model without parameters that predicts the uniform distribution at
    every timestep. *)
Definition uniform (v : nat) : list Np.float :=
  replicate v (Np.Fin (1 / INR v)).

Definition uniform_predict (_ : unit) (X : tensor Z) : tensor Np.float :=
  map (map (λ row : list Z, uniform (length row))) X.

Definition uniform_train (_ : unit) (_ _ : tensor Z) (_ : nat) : unit := ().
Definition uniform_load (_ : str) : except unit := inr ().

(** An exponential that is zero below [cut] and exact from there on, to
    run [temp_scale] with an instance of [Np.flushes_below]. *)
Definition exp_flush (cut : R) (x : Np.float) : Np.float :=
  match x with
  | Np.Fin r => if decide (r < cut)%R then Np.Fin 0 else Np.exp x
  | _ => Np.exp x
  end.

(** The tape as the whole of the initial state. *)
Definition tape (outcomes : list nat) : world := World outcomes [] [].

(** ** Notions used in the statements *)

(** The one-hot row of index [ix], and the rows that the loops leave for
    a word: [fill f z l n total] holds [f] of the first [n] entries of [l]
    and then [z] up to the length [total]. *)
Definition onehot (v ix : nat) : list Z := <[ix := 1%Z]> (replicate v 0%Z).

Definition fill {A B} (f : A → B) (z : B) (l : list A) (n total : nat)
  : list B :=
  (f <$> take n l) ++ replicate (total - n) z.

Definition row_of (c2i : gmap char nat) (v : nat) (c : char) : list Z :=
  onehot v (default 0 (c2i !! c)).

Definition rows_X (c2i : gmap char nat) (v : nat) (word : str) (n : nat)
  : list (list Z) :=
  fill (row_of c2i v) (replicate v 0%Z) word n MAX_WORD_LEN.

Definition rows_Y (c2i : gmap char nat) (v : nat) (word : str) (n : nat)
  : list (list Z) :=
  fill (row_of c2i v) (replicate v 0%Z) (drop 1 word) (n - 1) MAX_WORD_LEN.

(** What the generator relies on in a sampler: a draw below [n] is taken
    from the tape and nothing else changes; a failed draw changes
    nothing. *)
Definition sampler (choice : nat → list Np.float → M nat) : Prop :=
  ∀ n p w,
    match choice n p w with
    | Done ix w' =>
        ix < n ∧ rng w = ix :: rng w' ∧ stdout w' = stdout w ∧ keras w' = keras w
    | Raised _ w' | Starved w' => w' = w
    end.

(** A model is well formed for a vocabulary of [v] characters when, on one
    sequence of rows of width [v], it predicts one distribution without
    zeros per row, as a softmax layer of width [v] does. *)
Definition likely (v : nat) (d : list Np.float) : Prop :=
  Np.distribution v d ∧ Forall positive d.

Definition well_formed {model} (predict : model → tensor Z → tensor Np.float)
    (v : nat) (m : model) : Prop :=
  ∀ rows, Forall (λ r, length r = v) rows →
    ∃ out, predict m [rows] = [out] ∧ length out = length rows
           ∧ Forall (likely v) out.

(** What the sampler is given: on one sequence of rows of width [v] the
    model predicts one row per timestep, and [temp_scale], computed with
    [np_exp] at the temperature, turns each of them into a row that is
    [ok]: a distribution over the [v] outcomes ([Np.distribution]), or one
    without zeros ([likely]). *)
Definition sampled {model} (ok : nat → list Np.float → Prop)
    (np_exp : Np.float → Np.float) (temperature : Np.float)
    (predict : model → tensor Z → tensor Np.float) (v : nat) (m : model)
  : Prop :=
  ∀ rows, Forall (λ r, length r = v) rows →
    ∃ out, predict m [rows] = [out] ∧ length out = length rows
           ∧ Forall (λ d, ok v (temp_scale np_exp d temperature)) out.

(** The input tensor of [generate_word]: one sequence of [L] rows. *)
Definition shaped (v : nat) (X : tensor Z) : Prop :=
  ∃ rows, X = [rows] ∧ length rows = MAX_WORD_LEN
          ∧ Forall (λ r, length r = v) rows.

(** A computation that makes no Keras call, however it ends. *)
Definition quiet {A} (m : M A) : Prop := ∀ w, keras (final (m w)) = keras w.

(** The words among what was printed. *)
Definition words_printed (out : list output) : list str :=
  omap (λ o, match o with PrintWord word => Some word | _ => None end) out.

(** The epochs among the progress lines that were printed. *)
Definition epochs_printed (out : list output) : list nat :=
  omap (λ o, match o with PrintEpoch epoch _ => Some epoch | _ => None end) out.

(** A run that ends without an exception and that, where it waits for an
    outcome, has no index below [n] to take at the head of the tape. *)
Definition runs_on {A} (n : nat) (o : outcome A) : Prop :=
  match o with
  | Done _ _ => True
  | Raised _ _ => False
  | Starved w => ∀ ix, head (rng w) = Some ix → n ≤ ix
  end.

(** ** Inputs of the examples *)

(** The words of the running example of the specification. *)
Definition cat_car_cap : list str :=
  [[99; 97; 116; 10]; [99; 97; 114; 10]; [99; 97; 112; 10]]%N.

(** The options of a run that asks for loading and for saving. *)
Definition load_and_save : arguments :=
  Arguments [119%N] (Some [115%N]) (Some [109%N]) (Np.Fin 1) 2 100 false.

(** * Properties *)

(** ** The temperature sampler *)

Section temp_scale_facts.
Local Open Scope R_scope.

Lemma sum_fin_from (a : R) (xs : list R) :
  foldl Np.add (Np.Fin a) (fin xs) = Np.Fin (a + Rsum xs).
Proof.
  revert a. induction xs as [|x xs IH]; intros a; simpl.
  - f_equal. lra.
  - rewrite IH. f_equal. lra.
Qed.

Lemma sum_fin (xs : list R) : Np.sum (fin xs) = Np.Fin (Rsum xs).
Proof. unfold Np.sum. rewrite sum_fin_from. f_equal. lra. Qed.

Lemma Rsum_nonneg (xs : list R) : Forall (λ x, 0 <= x) xs → 0 <= Rsum xs.
Proof. induction 1; simpl; lra. Qed.

Lemma Rsum_scale (c : R) (xs : list R) :
  Rsum (map (λ x, x / c) xs) = Rsum xs / c.
Proof. induction xs as [|x xs IH]; simpl; [|rewrite IH]; lra. Qed.

Lemma sharpen_nonneg (t x : R) : 0 <= sharpen t x.
Proof.
  unfold sharpen. case_decide; [|lra].
  left. apply exp_pos.
Qed.

Lemma sharpen_pos (t x : R) : 0 < x → 0 < sharpen t x.
Proof. intros Hx. unfold sharpen. rewrite decide_True by done. apply exp_pos. Qed.

Lemma sharpen_one (x : R) : 0 <= x → sharpen 1 x = x.
Proof.
  intros Hx. unfold sharpen. case_decide as Hpos; [|lra].
  replace (ln x / 1) with (ln x) by lra. by apply exp_ln.
Qed.

(** The first line of [temp_scale] on one non-negative entry. *)
Lemma scale_entry (t x : R) :
  0 < t → 0 <= x →
  Np.exp (Np.div (Np.log (Np.Fin x)) (Np.Fin t)) = Np.Fin (sharpen t x).
Proof.
  intros Ht Hx. unfold sharpen. simpl. destruct (decide (0 < x)) as [Hpos|Hpos]; simpl.
  - rewrite decide_False by lra. done.
  - rewrite decide_True by lra. simpl. unfold Np.inf_over.
    rewrite decide_True by done. done.
Qed.

Lemma normalise_entries (s : R) (q : list R) :
  s ≠ 0 →
  map (λ x, Np.div x (Np.Fin s)) (fin q) = fin (map (λ x, x / s) q).
Proof.
  intros Hs. induction q as [|x q IH]; [done|].
  unfold fin in *. rewrite !map_cons, IH. f_equal.
  simpl. by rewrite decide_False.
Qed.

(** [temp_scale] in closed form, for an [np_exp] that acts as [g] on the
    entries of [p] and leaves some mass. *)
Lemma temp_scale_closed (np_exp : Np.float → Np.float) (g : R → R) (t : R)
    (p : list R) :
  Forall (λ x, np_exp (Np.div (Np.log (Np.Fin x)) (Np.Fin t)) = Np.Fin (g x)) p →
  (∀ x, 0 <= g x) →
  0 < Rsum (map g p) →
  temp_scale np_exp (fin p) (Np.Fin t)
  = fin (map (λ x, x / Rsum (map g p)) (map g p)) ∧
  probability_vector (map (λ x, x / Rsum (map g p)) (map g p)).
Proof.
  intros Hent Hg Hmass. split.
  - unfold temp_scale.
    assert (Hfirst : map (λ x, np_exp (Np.div (Np.log x) (Np.Fin t))) (fin p)
                     = fin (map g p)).
    { clear Hmass. induction Hent as [|x p Hx _ IH]; [done|].
      unfold fin in *. by rewrite !map_cons, Hx, IH. }
    rewrite Hfirst, sum_fin. apply normalise_entries. lra.
  - split.
    + apply Forall_forall. intros y Hy.
      apply list_elem_of_fmap in Hy as (z & -> & Hz).
      apply list_elem_of_fmap in Hz as (x & -> & _).
      apply Rmult_le_pos; [done|]. left. by apply Rinv_0_lt_compat.
    + rewrite Rsum_scale. field. lra.
Qed.

Lemma Rsum_map_nonneg (g : R → R) (p : list R) :
  (∀ x, 0 <= g x) → 0 <= Rsum (map g p).
Proof.
  intros Hg. apply Rsum_nonneg, Forall_forall. intros y Hy.
  apply list_elem_of_fmap in Hy as (z & -> & _). apply Hg.
Qed.

(** A vector of sum one has a positive entry, which stays positive. *)
Lemma sharpened_mass (t : R) (p : list R) :
  probability_vector p → 0 < Rsum (map (sharpen t) p).
Proof.
  intros [Hnn Hsum]. assert (Hmass : 0 < Rsum p) by lra. clear Hsum.
  induction Hnn as [|x p Hx Hp IH]; simpl in *; [lra|].
  pose proof (Rsum_map_nonneg (sharpen t) p (sharpen_nonneg t)).
  destruct (decide (0 < x)) as [Hpos|Hzero].
  - pose proof (sharpen_pos t x Hpos). lra.
  - pose proof (sharpen_nonneg t x). specialize (IH ltac:(lra)). lra.
Qed.

Lemma temp_scale_fin (t : R) (p : list R) :
  0 < t → probability_vector p →
  temp_scale Np.exp (fin p) (Np.Fin t)
  = fin (map (λ x, x / Rsum (map (sharpen t) p)) (map (sharpen t) p)).
Proof.
  intros Ht Hp. apply temp_scale_closed.
  - eapply Forall_impl; [apply Hp|]. intros x Hx. by apply scale_entry.
  - apply sharpen_nonneg.
  - by apply sharpened_mass.
Qed.

Lemma temp_scale_vector (t : R) (p : list R) :
  0 < t → probability_vector p →
  probability_vector (map (λ x, x / Rsum (map (sharpen t) p)) (map (sharpen t) p)).
Proof.
  intros Ht Hp. apply (temp_scale_closed Np.exp (sharpen t) t).
  - eapply Forall_impl; [apply Hp|]. intros x Hx. by apply scale_entry.
  - apply sharpen_nonneg.
  - by apply sharpened_mass.
Qed.

Lemma distribution_fin (p : list R) :
  probability_vector p → Np.distribution (length p) (fin p).
Proof.
  intros [Hnn Hsum]. repeat split.
  - destruct p; simpl in *; [lra|lia].
  - unfold fin. by rewrite length_map.
  - unfold fin. apply Forall_fmap. eapply Forall_impl; [done|]. by intros x ?.
  - rewrite sum_fin. by f_equal.
Qed.

Lemma distribution_inv (n : nat) (row : list Np.float) :
  Np.distribution n row →
  ∃ p, row = fin p ∧ probability_vector p ∧ length p = n.
Proof.
  intros (_ & Hlen & Hnn & Hsum).
  assert (∃ p, row = fin p ∧ Forall (λ x, 0 <= x) p) as (p & -> & Hp).
  { clear Hlen Hsum. induction Hnn as [|x row Hx _ (p & -> & Hp)].
    - by exists [].
    - destruct x as [r| | |]; try done. exists (r :: p). split; [done|].
      by constructor. }
  exists p. rewrite sum_fin in Hsum. injection Hsum as Hsum.
  unfold fin in Hlen. rewrite length_map in Hlen. done.
Qed.

(** What the sampler is given is again a distribution. *)
Lemma temp_scale_distribution (n : nat) (t : R) (row : list Np.float) :
  0 < t → Np.distribution n row → Np.distribution n (temp_scale Np.exp row (Np.Fin t)).
Proof.
  intros Ht Hrow. apply distribution_inv in Hrow as (p & -> & Hp & <-).
  rewrite temp_scale_fin by done.
  pose proof (distribution_fin _ (temp_scale_vector t p Ht Hp)) as Hd.
  by rewrite !length_map in Hd.
Qed.

Lemma temp_scale_positive (n : nat) (t : R) (row : list Np.float) :
  0 < t → Np.distribution n row → Forall positive row →
  Forall positive (temp_scale Np.exp row (Np.Fin t)).
Proof.
  intros Ht Hrow Hpos. apply distribution_inv in Hrow as (p & -> & Hp & <-).
  rewrite temp_scale_fin by done.
  pose proof (sharpened_mass t p Hp) as Hmass.
  unfold fin in *. rewrite Forall_fmap in Hpos. rewrite !Forall_fmap.
  eapply Forall_impl; [done|]. intros x Hx. simpl in *.
  apply Rmult_lt_0_compat; [by apply sharpen_pos|by apply Rinv_0_lt_compat].
Qed.

End temp_scale_facts.

(** C5. [temp_scale] at temperature 1 returns a probability vector
    unchanged: for non-negative reals [p] of sum 1, over exact arithmetic,
    [temp_scale(p, 1) = p]. *)
Theorem temp_scale_one (p : list R) :
  probability_vector p → temp_scale Np.exp (fin p) (Np.Fin 1) = fin p.
Proof.
  intros Hp. rewrite temp_scale_fin by (lra || done).
  destruct Hp as [Hnn Hsum]. f_equal.
  assert (Hid : map (sharpen 1) p = p).
  { clear Hsum. induction Hnn as [|x p Hx _ IH]; simpl; [done|].
    by rewrite sharpen_one, IH. }
  rewrite Hid, Hsum. clear. induction p as [|x p IH]; simpl; [done|].
  rewrite IH. f_equal. lra.
Qed.

Lemma temp_scale_one_witness :
  temp_scale Np.exp (fin [(1/4)%R; (3/4)%R; 0%R]) (Np.Fin 1) = fin [(1/4)%R; (3/4)%R; 0%R].
Proof.
  apply temp_scale_one. split.
  - repeat constructor; lra.
  - simpl. lra.
Defined.

(** [ln (1/2)] is below [-1/2]. *)
Lemma ln_half : (ln (1 / 2) < - (1 / 2))%R.
Proof.
  replace (1 / 2)%R with (/ 2)%R by lra.
  rewrite ln_Rinv by lra. pose proof ln_lt_2. lra.
Qed.

Lemma sum_zero_or_nan (a : Np.float) (l : list Np.float) :
  a = Np.Fin 0 ∨ a = Np.NaN →
  Forall (λ y, y = Np.Fin 0 ∨ y = Np.NaN) l →
  foldl Np.add a l = Np.Fin 0 ∨ foldl Np.add a l = Np.NaN.
Proof.
  intros Ha Hl. revert a Ha. induction Hl as [|y l Hy _ IH]; intros a Ha; [done|].
  simpl. apply IH. destruct Ha as [-> | ->], Hy as [-> | ->]; simpl; auto.
  left. f_equal. lra.
Qed.

Lemma div_zero_or_nan (y s : Np.float) :
  y = Np.Fin 0 ∨ y = Np.NaN → s = Np.Fin 0 ∨ s = Np.NaN →
  Np.div y s = Np.NaN.
Proof.
  intros [-> | ->] [-> | ->]; simpl; try done.
  rewrite decide_True by done. rewrite decide_False by lra.
  by rewrite decide_True by done.
Qed.

Lemma nan_not_distribution (n k : nat) :
  ¬ Np.distribution n (replicate k Np.NaN).
Proof.
  intros (Hn & Hlen & Hnn & _). rewrite length_replicate in Hlen. subst k.
  destruct n as [|n]; [lia|]. by inversion Hnn.
Qed.

(** When the first line of [temp_scale] leaves only [0.0] and [nan], the
    second line leaves only [nan]. *)
Lemma temp_scale_all_nan (np_exp : Np.float → Np.float)
    (probs : list Np.float) (temperature : Np.float) :
  Forall (λ x, np_exp (Np.div (Np.log x) temperature) = Np.Fin 0
               ∨ np_exp (Np.div (Np.log x) temperature) = Np.NaN) probs →
  temp_scale np_exp probs temperature = replicate (length probs) Np.NaN.
Proof.
  intros Hall. unfold temp_scale.
  set (l := map (λ x, np_exp (Np.div (Np.log x) temperature)) probs).
  assert (Hl : Forall (λ y, y = Np.Fin 0 ∨ y = Np.NaN) l).
  { unfold l. by apply Forall_fmap. }
  assert (Hs : Np.sum l = Np.Fin 0 ∨ Np.sum l = Np.NaN).
  { apply sum_zero_or_nan; auto. }
  replace (length probs) with (length l) by (unfold l; by rewrite length_map).
  clearbody l. revert Hs. generalize (Np.sum l). intros s Hs.
  induction Hl as [|y l Hy _ IH]; [done|].
  simpl. by rewrite IH, div_zero_or_nan.
Qed.

(** The first line of [temp_scale] on an entry that is zero or whose
    logarithm, divided by the temperature, is below the cut. *)
Lemma scale_entry_flushed (np_exp : Np.float → Np.float) (cut t x : R) :
  Np.flushes_below cut np_exp → (0 < t)%R → (0 <= x)%R →
  ((0 < x)%R → (ln x / t < cut)%R) →
  np_exp (Np.div (Np.log (Np.Fin x)) (Np.Fin t)) = Np.Fin 0.
Proof.
  intros [Hinf Hcut] Ht Hx Hlow. simpl.
  destruct (decide (0 < x)%R) as [Hpos|Hzero]; simpl.
  - rewrite decide_False by lra. by apply Hcut, Hlow.
  - rewrite decide_True by lra. simpl. unfold Np.inf_over.
    by rewrite decide_True by done.
Qed.

(** C6.  [temp_scale] has no guard against the underflow of [np.exp]: for
    an [np_exp] that is [0.0] below a cut, as every floating-point one
    is, and a probability vector [p], a temperature [t > 0] so low that
    [log(x) / t] is below the cut for every positive entry [x] of [p]
    makes every entry of [temp_scale(p, t)] [nan], which
    [np.random.choice] rejects, instead of a distribution near the
    argmax. *)
Theorem temp_scale_low_temperature (np_exp : Np.float → Np.float)
    (cut : R) (p : list R) (t : R) :
  Np.flushes_below cut np_exp → probability_vector p → (0 < t)%R →
  Forall (λ x, (0 < x)%R → (ln x / t < cut)%R) p →
  temp_scale np_exp (fin p) (Np.Fin t) = replicate (length p) Np.NaN ∧
  ¬ Np.distribution (length p) (temp_scale np_exp (fin p) (Np.Fin t)).
Proof.
  intros Hflush [Hnn _] Ht Hlow.
  assert (Hnan : temp_scale np_exp (fin p) (Np.Fin t)
                 = replicate (length (fin p)) Np.NaN).
  { apply temp_scale_all_nan. unfold fin. apply Forall_fmap, Forall_forall.
    intros x Hx. unfold compose. left.
    apply (scale_entry_flushed np_exp cut); [done..| |].
    - by eapply Forall_forall in Hnn.
    - by eapply Forall_forall in Hlow. }
  rewrite Hnan. unfold fin. rewrite length_map.
  split; [done|apply nan_not_distribution].
Qed.

Lemma exp_flush_flushes (cut : R) : Np.flushes_below cut (exp_flush cut).
Proof.
  split; [done|]. intros r Hr. unfold exp_flush. by rewrite decide_True.
Qed.

Lemma temp_scale_low_temperature_witness :
  temp_scale (exp_flush (-746)) (fin [(1/2)%R; (1/2)%R]) (Np.Fin (1/10000))
  = replicate (length [(1/2)%R; (1/2)%R]) Np.NaN ∧
  ¬ Np.distribution (length [(1/2)%R; (1/2)%R])
      (temp_scale (exp_flush (-746)) (fin [(1/2)%R; (1/2)%R])
         (Np.Fin (1/10000))).
Proof.
  apply (temp_scale_low_temperature (exp_flush (-746)) (-746)).
  - apply exp_flush_flushes.
  - split; [repeat constructor; lra | simpl; lra].
  - lra.
  - pose proof ln_half. repeat constructor; intros _; lra.
Defined.

(** X17.  Over exact arithmetic, for a probability vector [p] and a
    temperature [t > 0], [temp_scale(p, t)] consists of as many finite
    non-negative numbers of sum 1, also where [p] has zeros, and
    [np.random.choice] accepts it. *)
Theorem temp_scale_exact_valid (p : list R) (t : R) :
  probability_vector p → (0 < t)%R →
  (∃ q, temp_scale Np.exp (fin p) (Np.Fin t) = fin q ∧ length q = length p
        ∧ probability_vector q) ∧
  Np.distribution (length p) (temp_scale Np.exp (fin p) (Np.Fin t)).
Proof.
  intros Hp Ht. split.
  - eexists. split; [by apply temp_scale_fin|].
    split; [by rewrite !length_map|]. by apply temp_scale_vector.
  - apply temp_scale_distribution; [done|]. by apply distribution_fin.
Qed.

Lemma temp_scale_exact_valid_witness :
  (∃ q, temp_scale Np.exp (fin [(1/2)%R; (1/2)%R; 0%R]) (Np.Fin (1/2)) = fin q
        ∧ length q = length [(1/2)%R; (1/2)%R; 0%R]
        ∧ probability_vector q) ∧
  Np.distribution (length [(1/2)%R; (1/2)%R; 0%R])
    (temp_scale Np.exp (fin [(1/2)%R; (1/2)%R; 0%R]) (Np.Fin (1/2))).
Proof.
  apply temp_scale_exact_valid.
  - split; [repeat constructor; lra | simpl; lra].
  - lra.
Defined.

(** ** The vocabulary *)

Section vocabulary_facts.

Lemma dict_of_snoc `{Countable K} {V} (kvs : list (K * V)) (k : K) (v : V) :
  dict_of (kvs ++ [(k, v)]) = <[k := v]> (dict_of kvs).
Proof. unfold dict_of. by rewrite foldl_app. Qed.

(** With distinct keys a comprehension holds exactly its pairs. *)
Lemma dict_of_lookup `{Countable K} {V} (kvs : list (K * V)) (k : K) (v : V) :
  NoDup kvs.*1 → dict_of kvs !! k = Some v ↔ (k, v) ∈ kvs.
Proof.
  induction kvs as [|[k' v'] kvs IH] using rev_ind; intros Hnd.
  - unfold dict_of. simpl. rewrite lookup_empty. split; [done|].
    by intros ?%elem_of_nil.
  - rewrite dict_of_snoc. rewrite fmap_app in Hnd. simpl in Hnd.
    apply NoDup_app in Hnd as (Hnd & Hfresh & _).
    rewrite elem_of_app, list_elem_of_singleton.
    destruct (decide (k' = k)) as [->|Hne].
    + rewrite lookup_insert_eq. split.
      * intros [= ->]. by right.
      * intros [Hin|[= ->]]; [|done]. exfalso.
        apply (Hfresh k); [|simpl; constructor].
        apply list_elem_of_fmap. by exists (k, v).
    + rewrite lookup_insert_ne by done. rewrite IH by done.
      split; [by left|]. intros [?|[= ? ?]]; [done|congruence].
Qed.

Lemma elem_of_enumerate {A} (l : list A) (i : nat) (x : A) :
  (i, x) ∈ enumerate l ↔ l !! i = Some x.
Proof.
  unfold enumerate. rewrite list_elem_of_lookup. split.
  - intros (j & Hj). apply lookup_zip_Some in Hj as [Hseq Hl].
    apply lookup_seq in Hseq as [-> _]. done.
  - intros Hl. exists i. apply lookup_zip_Some. split; [|done].
    apply lookup_seq. split; [done|]. by apply lookup_lt_Some in Hl.
Qed.

Lemma enumerate_keys {A} (l : list A) : (enumerate l).*1 = seq 0 (length l).
Proof. unfold enumerate. apply fst_zip. by rewrite length_seq. Qed.

Lemma enumerate_values {A} (l : list A) : (enumerate l).*2 = l.
Proof. unfold enumerate. apply snd_zip. by rewrite length_seq. Qed.

Lemma ix_to_char_lookup (cs : list char) (i : nat) :
  ix_to_char cs !! i = cs !! i.
Proof.
  unfold ix_to_char. destruct (cs !! i) as [c|] eqn:Hc.
  - apply dict_of_lookup; [|by apply elem_of_enumerate].
    rewrite enumerate_keys. apply NoDup_seq.
  - destruct (dict_of (enumerate cs) !! i) as [c|] eqn:Hd; [|done].
    apply dict_of_lookup in Hd; [|rewrite enumerate_keys; apply NoDup_seq].
    apply elem_of_enumerate in Hd. congruence.
Qed.

Lemma char_to_ix_lookup (cs : list char) (c : char) (i : nat) :
  NoDup cs → char_to_ix cs !! c = Some i ↔ cs !! i = Some c.
Proof.
  intros Hnd. unfold char_to_ix. rewrite dict_of_lookup.
  - rewrite list_elem_of_fmap. split.
    + intros ([j x] & [= -> ->] & Hin). by apply elem_of_enumerate.
    + intros Hl. exists (i, c). split; [done|]. by apply elem_of_enumerate.
  - rewrite <- list_fmap_compose.
    replace (fst ∘ prod_swap) with (@snd nat char) by done.
    by rewrite enumerate_values.
Qed.

Lemma py_sorted_perm (l : list char) : py_sorted l ≡ₚ l.
Proof. apply merge_sort_Permutation. Qed.

Lemma py_sorted_sorted (l : list char) : StronglySorted N.le (py_sorted l).
Proof. apply StronglySorted_merge_sort; apply _. Qed.

(** [sorted] does not depend on the order of what it is given. *)
Lemma py_sorted_order (l1 l2 : list char) :
  l1 ≡ₚ l2 → py_sorted l1 = py_sorted l2.
Proof.
  intros Hperm. apply (StronglySorted_unique N.le); try apply py_sorted_sorted.
  by rewrite !py_sorted_perm.
Qed.

Lemma chars_NoDup (words : list str) : NoDup (chars words).
Proof. unfold chars. rewrite py_sorted_perm. apply NoDup_elements. Qed.

Lemma elem_of_chars (words : list str) (c : char) :
  c ∈ chars words ↔ c ∈ concat words.
Proof.
  unfold chars. rewrite py_sorted_perm, elem_of_elements, elem_of_list_to_set.
  done.
Qed.

Lemma elem_of_chars_word (words : list str) (word : str) (c : char) :
  word ∈ words → c ∈ word → c ∈ chars words.
Proof.
  intros Hw Hc. apply elem_of_chars, list_elem_of_In, in_concat.
  exists word. by rewrite <- !list_elem_of_In.
Qed.

(** Every character of the words has its index. *)
Lemma char_to_ix_total (words : list str) (word : str) (c : char) :
  word ∈ words → c ∈ word →
  ∃ ix, char_to_ix (chars words) !! c = Some ix ∧ ix < length (chars words).
Proof.
  intros Hw Hc.
  pose proof (elem_of_chars_word words word c Hw Hc) as Hin.
  apply list_elem_of_lookup in Hin as (ix & Hix). exists ix. split.
  - apply char_to_ix_lookup; [apply chars_NoDup|done].
  - by apply lookup_lt_Some in Hix.
Qed.

(** The first entry of the vocabulary is its least character. *)
Lemma chars_least (words : list str) (c0 c : char) :
  chars words !! 0 = Some c0 → c ∈ chars words → (c0 ≤ c)%N.
Proof.
  intros H0 Hc. pose proof (py_sorted_sorted
    (elements (list_to_set (concat words) : gset char))) as Hs.
  fold (chars words) in Hs. destruct (chars words) as [|c1 cs]; [done|].
  injection H0 as ->. apply StronglySorted_inv in Hs as [_ Hall].
  apply elem_of_cons in Hc as [->|Hc]; [done|].
  by eapply Forall_forall in Hall.
Qed.

End vocabulary_facts.

(** C9, as amended.  For every word list the two mappings are inverse to
    each other and cover exactly the characters of the words, and the
    vocabulary does not depend on the order in which the set of
    characters is iterated; index 0 is the newline when the list is not
    empty, every word contains the newline, and no word holds a character
    below it. *)
Theorem vocabulary_invariant (words : list str) :
  (words ≠ [] →
   (∀ word, word ∈ words → newline ∈ word) →
   (∀ word c, word ∈ words → c ∈ word → (newline ≤ c)%N) →
   ix_to_char (chars words) !! 0 = Some newline ∧
   char_to_ix (chars words) !! newline = Some 0) ∧
  (∀ i c, ix_to_char (chars words) !! i = Some c
          ↔ char_to_ix (chars words) !! c = Some i) ∧
  (∀ c, c ∈ concat words ↔ is_Some (char_to_ix (chars words) !! c)) ∧
  (∀ order, order ≡ₚ elements (list_to_set (concat words) : gset char) →
            py_sorted order = chars words).
Proof.
  pose proof (chars_NoDup words) as Hnd.
  assert (Hinv : ∀ i c, ix_to_char (chars words) !! i = Some c
                        ↔ char_to_ix (chars words) !! c = Some i).
  { intros i c. by rewrite ix_to_char_lookup, char_to_ix_lookup. }
  split; [|split; [done|split]].
  - intros Hne Hnl Hlow.
    destruct words as [|word words'] eqn:Hw; [done|]. rewrite <- Hw in *.
    assert (Hword : word ∈ words) by (rewrite Hw; left).
    assert (Hin : newline ∈ chars words)
      by (eapply elem_of_chars_word; eauto).
    destruct (chars words !! 0) as [c0|] eqn:H0.
    + assert (c0 = newline) as ->.
      { pose proof (chars_least words c0 newline H0 Hin).
        assert (Hc0 : c0 ∈ concat words).
        { apply elem_of_chars, list_elem_of_lookup. eauto. }
        apply list_elem_of_In, in_concat in Hc0 as (w' & Hw' & Hc0).
        rewrite <- !list_elem_of_In in *.
        pose proof (Hlow w' c0 Hw' Hc0). lia. }
      assert (ix_to_char (chars words) !! 0 = Some newline)
        by (by rewrite ix_to_char_lookup).
      split; [done|]. by apply Hinv.
    + apply lookup_ge_None in H0.
      apply list_elem_of_lookup in Hin as (i & Hi%lookup_lt_Some). lia.
  - intros c. rewrite <- elem_of_chars, list_elem_of_lookup. split.
    + intros (i & Hi). exists i. by apply char_to_ix_lookup.
    + intros (i & Hi). exists i. by apply char_to_ix_lookup in Hi.
  - intros order Hperm. unfold chars. by apply py_sorted_order.
Qed.

Lemma vocabulary_invariant_witness :
  ix_to_char (chars cat_car_cap) !! 0 = Some newline ∧
  char_to_ix (chars cat_car_cap) !! newline = Some 0.
Proof.
  apply (vocabulary_invariant cat_car_cap).
  - done.
  - intros word Hword. repeat (apply elem_of_cons in Hword as [->|Hword]);
      [set_solver..|by apply elem_of_nil in Hword].
  - intros word c Hword Hc.
    repeat (apply elem_of_cons in Hword as [->|Hword]);
      [..|by apply elem_of_nil in Hword];
      repeat (apply elem_of_cons in Hc as [->|Hc]);
      try (by apply elem_of_nil in Hc); by vm_compute.
Defined.

(** C9, as stated, fails for a word with a character below the newline,
    and for the empty word list: in ["\x01a\n"] every word contains the
    newline, yet index 0 is U+0001 and the newline has index 1. *)
Lemma vocabulary_index_0_counterexample :
  (∀ word, word ∈ [[1; 97; 10]%N] → newline ∈ word) ∧
  ix_to_char (chars [[1; 97; 10]%N]) !! 0 = Some 1%N ∧
  char_to_ix (chars [[1; 97; 10]%N]) !! newline = Some 1 ∧
  ix_to_char (chars []) !! 0 = None.
Proof.
  split; [|by vm_compute].
  intros word ->%list_elem_of_singleton. set_solver.
Qed.

(** ** The encoder *)

Section encoder_facts.

Lemma for_each_app {S} (l1 l2 : list nat) (body : nat → S → except S) (s : S) :
  for_each (l1 ++ l2) body s = ebind (for_each l1 body s) (for_each l2 body).
Proof.
  revert s. induction l1 as [|i l1 IH]; intros s; simpl; [done|].
  destruct (body i s); simpl; [done|apply IH].
Qed.

Lemma for_range_S {S} (n : nat) (body : nat → S → except S) (s : S) :
  for_range (Datatypes.S n) body s = ebind (for_range n body s) (body n).
Proof.
  unfold for_range. rewrite seq_S, for_each_app. simpl.
  destruct (for_each (seq 0 n) body s); simpl; [done|].
  by destruct (body n _).
Qed.

Lemma setitem_inr {A} (T : tensor A) (i j k : nat) (x : A) m r :
  T !! i = Some m → m !! j = Some r → k < length r →
  setitem T i j k x = inr (<[i := <[j := <[k := x]> r]> m]> T).
Proof.
  intros Hi Hj Hk. unfold setitem, getitem. rewrite Hi. simpl. rewrite Hj. simpl.
  by rewrite decide_True.
Qed.

Lemma length_fill {A B} (f : A → B) (z : B) (l : list A) (n total : nat) :
  n ≤ length l → n ≤ total → length (fill f z l n total) = total.
Proof.
  intros Hn Ht. unfold fill.
  rewrite length_app, length_fmap, length_take, length_replicate. lia.
Qed.

Lemma lookup_fill {A B} (f : A → B) (z : B) (l : list A) (n total t : nat) :
  n ≤ length l → n ≤ total →
  fill f z l n total !! t
  = if decide (t < n) then f <$> l !! t
    else if decide (t < total) then Some z else None.
Proof.
  intros Hn Ht. unfold fill. case_decide as Hlt.
  - rewrite lookup_app_l by (rewrite length_fmap, length_take; lia).
    by rewrite list_lookup_fmap, lookup_take_lt.
  - rewrite lookup_app_r by (rewrite length_fmap, length_take; lia).
    rewrite length_fmap, length_take. case_decide.
    + apply lookup_replicate. split; [done|lia].
    + apply lookup_ge_None. rewrite length_replicate. lia.
Qed.

(** Writing [f a] at position [n] extends the filled part by one. *)
Lemma fill_next {A B} (f : A → B) (z : B) (l : list A) (n total : nat) (a : A) :
  l !! n = Some a → n < total →
  <[n := f a]> (fill f z l n total) = fill f z l (S n) total.
Proof.
  intros Ha Hn. pose proof (lookup_lt_Some _ _ _ Ha) as Hlen.
  apply list_eq. intros t.
  rewrite lookup_fill by lia.
  destruct (decide (t = n)) as [->|Hne].
  - rewrite list_lookup_insert_eq by (rewrite length_fill; lia).
    rewrite decide_True by lia. by rewrite Ha.
  - rewrite list_lookup_insert_ne by done. rewrite lookup_fill by lia.
    repeat case_decide; try done; lia.
Qed.

Context (c2i : gmap char nat) (v : nat).

(** The inner loop on the rows of one word, all zero at the start. *)
Lemma encode_chars (words_i : nat) (word : str) (n : nat)
    (X Y : tensor Z) :
  words_i < length X → words_i < length Y →
  n ≤ length word → n ≤ MAX_WORD_LEN →
  (∀ c, c ∈ word → ∃ ix, c2i !! c = Some ix ∧ ix < v) →
  for_range n (encode_char c2i words_i word)
    (<[words_i := rows_X c2i v word 0]> X, <[words_i := rows_Y c2i v word 0]> Y)
  = inr (<[words_i := rows_X c2i v word n]> X,
         <[words_i := rows_Y c2i v word n]> Y).
Proof.
  intros HX HY Hn HL Hix. induction n as [|n IH]; [done|].
  rewrite for_range_S, IH by lia. cbn [ebind].
  destruct (word !! n) as [c|] eqn:Hc;
    [|apply lookup_ge_None in Hc; lia].
  destruct (Hix c) as (ix & Hci & Hlt); [by eapply list_elem_of_lookup_2|].
  unfold encode_char, getitem, dict_get. rewrite Hc. simpl. rewrite Hci. simpl.
  assert (Hrow : row_of c2i v c = <[ix := 1%Z]> (replicate v 0%Z)).
  { unfold row_of, onehot. by rewrite Hci. }
  rewrite (setitem_inr _ words_i n ix 1%Z (rows_X c2i v word n)
             (replicate v 0%Z)); cycle 1.
  { by apply list_lookup_insert_eq. }
  { unfold rows_X. rewrite lookup_fill by lia.
    rewrite decide_False, decide_True by lia. done. }
  { by rewrite length_replicate. }
  cbn [mbind except_bind ebind]. rewrite list_insert_insert_eq, <- Hrow.
  unfold rows_X at 1. rewrite (fill_next _ _ _ _ _ c) by (done || lia).
  fold (rows_X c2i v word (S n)).
  destruct n as [|n].
  - rewrite decide_False by lia. done.
  - rewrite decide_True by lia.
    rewrite (setitem_inr _ words_i (S n - 1) ix 1%Z (rows_Y c2i v word (S n))
               (replicate v 0%Z)); cycle 1.
    { by apply list_lookup_insert_eq. }
    { unfold rows_Y. rewrite lookup_fill; [|rewrite length_drop; lia|lia].
      rewrite decide_False, decide_True by lia. done. }
    { by rewrite length_replicate. }
    cbn [mbind except_bind ebind mret except_ret].
    rewrite list_insert_insert_eq, <- Hrow.
    unfold rows_Y at 1.
    rewrite (fill_next _ _ _ _ _ c);
      [|rewrite lookup_drop, <- Hc; f_equal; lia|lia].
    unfold rows_Y. by replace (S (S n) - 1) with (S (S n - 1)) by lia.
Qed.

End encoder_facts.

Lemma fill_all {A B} (f : A → B) (z : B) (l : list A) :
  fill f z l (length l) (length l) = f <$> l.
Proof.
  unfold fill. rewrite firstn_all, Nat.sub_diag. simpl. apply app_nil_r.
Qed.

Lemma hot_onehot (n ix : nat) : ix < n → hot (onehot n ix) = Some ix.
Proof.
  unfold onehot. revert ix. induction n as [|n IH]; intros ix Hix; [lia|].
  destruct ix as [|ix]; simpl; [done|].
  by rewrite IH by lia.
Qed.

Lemma hot_zero (n : nat) : hot (replicate n 0%Z) = None.
Proof. induction n as [|n IH]; simpl; [done|]. by rewrite IH. Qed.

Section encode_facts.

Context (words : list str).

Let cs := chars words.
Let v := length cs.
Let c2i := char_to_ix cs.
Let rows_of_X (word : str) := rows_X c2i v word (length word `min` MAX_WORD_LEN).
Let rows_of_Y (word : str) := rows_Y c2i v word (length word `min` MAX_WORD_LEN).
Let blank : list (list Z) := replicate MAX_WORD_LEN (replicate v 0%Z).

(** The outer loop after [k] words. *)
Lemma encode_words (k : nat) :
  k ≤ length words →
  for_range k (encode_word c2i words)
    (zeros (length words) MAX_WORD_LEN v, zeros (length words) MAX_WORD_LEN v)
  = inr (fill rows_of_X blank words k (length words),
         fill rows_of_Y blank words k (length words)).
Proof.
  induction k as [|k IH]; intros Hk.
  - unfold for_range, fill, zeros. simpl. by rewrite Nat.sub_0_r.
  - rewrite for_range_S, IH by lia. cbn [ebind].
    destruct (words !! k) as [word|] eqn:Hword;
      [|apply lookup_ge_None in Hword; lia].
    unfold encode_word, getitem. rewrite Hword. cbn [mbind except_bind ebind].
    set (X := fill rows_of_X blank words k (length words)).
    set (Y := fill rows_of_Y blank words k (length words)).
    assert (HX : X !! k = Some blank).
    { unfold X. rewrite lookup_fill by lia.
      by rewrite decide_False, decide_True by lia. }
    assert (HY : Y !! k = Some blank).
    { unfold Y. rewrite lookup_fill by lia.
      by rewrite decide_False, decide_True by lia. }
    rewrite <- (list_insert_id X k blank HX) at 1.
    rewrite <- (list_insert_id Y k blank HY) at 1.
    change blank with (rows_X c2i v word 0) at 1.
    change blank with (rows_Y c2i v word 0) at 1.
    rewrite (encode_chars c2i v).
    + unfold X, Y.
      change (rows_X c2i v word (length word `min` MAX_WORD_LEN))
        with (rows_of_X word).
      change (rows_Y c2i v word (length word `min` MAX_WORD_LEN))
        with (rows_of_Y word).
      by rewrite !(fill_next _ _ _ _ _ word) by (done || lia).
    + by apply lookup_lt_Some in HX.
    + by apply lookup_lt_Some in HY.
    + lia.
    + lia.
    + intros c Hc. apply (char_to_ix_total words word); [|done].
      by eapply list_elem_of_lookup_2.
Qed.

(** The tensors of a word list, in closed form. *)
Lemma encode_closed :
  encode words = inr (rows_of_X <$> words, rows_of_Y <$> words).
Proof.
  unfold encode. fold cs. fold v. fold c2i.
  rewrite encode_words by done. by rewrite !fill_all.
Qed.

(** A row written for a character of the vocabulary reads back as it. *)
Lemma decode_row_of (word : str) (c : char) :
  word ∈ words → c ∈ word →
  decode_row (ix_to_char cs) (row_of c2i v c) = Some c.
Proof.
  intros Hword Hc.
  destruct (char_to_ix_total words word c Hword Hc) as (ix & Hix & Hlt).
  unfold decode_row, row_of. fold cs in Hix. fold c2i in Hix. rewrite Hix. simpl.
  rewrite hot_onehot by done. simpl. rewrite ix_to_char_lookup.
  by apply char_to_ix_lookup in Hix; [|apply chars_NoDup].
Qed.

End encode_facts.

(** Rows [t + 1] of [X] and [t] of [Y] for one word. *)
Lemma rows_shift (c2i : gmap char nat) (v : nat) (word : str) (n t : nat) :
  n ≤ length word → n ≤ MAX_WORD_LEN → t < MAX_WORD_LEN - 1 →
  rows_Y c2i v word n !! t = rows_X c2i v word n !! (t + 1).
Proof.
  intros Hn HL Ht. unfold rows_X, rows_Y.
  rewrite !lookup_fill by (try rewrite length_drop; lia).
  destruct (decide (t < n - 1)), (decide (t + 1 < n)); try lia.
  - rewrite lookup_drop. do 2 f_equal. lia.
  - rewrite !decide_True by (unfold MAX_WORD_LEN in *; lia). done.
Qed.

(** C7.  The tensors exist for every word list, and for every word [i]
    row [t] of [Y] is row [t + 1] of [X] for all [t < L - 1] (in
    particular where that row of [X] is not zero), and row [L - 1] of [Y]
    is all zero. *)
Theorem target_is_shifted_input (words : list str) :
  ∃ X Y, encode words = inr (X, Y) ∧
    ∀ i, i < length words →
      ∃ x y, X !! i = Some x ∧ Y !! i = Some y ∧
        length x = MAX_WORD_LEN ∧ length y = MAX_WORD_LEN ∧
        (∀ t, t < MAX_WORD_LEN - 1 → y !! t = x !! (t + 1)) ∧
        y !! (MAX_WORD_LEN - 1) = Some (replicate (length (chars words)) 0%Z).
Proof.
  eexists _, _. split; [apply encode_closed|].
  intros i Hi. destruct (words !! i) as [word|] eqn:Hword;
    [|apply lookup_ge_None in Hword; lia].
  rewrite !list_lookup_fmap, Hword. simpl. eexists _, _.
  split; [done|]. split; [done|].
  assert (Hmin : length word `min` MAX_WORD_LEN ≤ length word) by lia.
  assert (HL : length word `min` MAX_WORD_LEN ≤ MAX_WORD_LEN) by lia.
  repeat split.
  - unfold rows_X. by rewrite length_fill.
  - unfold rows_Y. rewrite length_fill; [done|rewrite length_drop; lia|lia].
  - intros t Ht. by apply rows_shift.
  - unfold rows_Y. rewrite lookup_fill; [|rewrite length_drop; lia|lia].
    rewrite decide_False by (unfold MAX_WORD_LEN in *; lia).
    by rewrite decide_True by (unfold MAX_WORD_LEN; lia).
Qed.

(** C8.  For a word of the list, the first [min(len, L)] rows of its part
    of [X] decode, through the index-to-character mapping, to the first
    [min(len, L)] characters of the word, and the rows from the length of
    the word on are all zero. *)
Theorem encoding_round_trip (words : list str) (i : nat) (word : str) :
  words !! i = Some word →
  ∃ X Y x, encode words = inr (X, Y) ∧ X !! i = Some x ∧
    length x = MAX_WORD_LEN ∧
    take (length word `min` MAX_WORD_LEN)
      (decode_rows (ix_to_char (chars words)) x)
    = Some <$> take (length word `min` MAX_WORD_LEN) word ∧
    (∀ t, length word ≤ t < MAX_WORD_LEN →
          x !! t = Some (replicate (length (chars words)) 0%Z)).
Proof.
  intros Hword. eexists _, _, _. split; [apply encode_closed|].
  rewrite list_lookup_fmap, Hword. simpl. split; [done|].
  set (n := length word `min` MAX_WORD_LEN).
  assert (Hn : n ≤ length word) by lia.
  assert (HL : n ≤ MAX_WORD_LEN) by lia.
  assert (Hin : word ∈ words) by (by eapply list_elem_of_lookup_2).
  split; [|split].
  - unfold rows_X. by rewrite length_fill.
  - unfold decode_rows, rows_X, fill.
    rewrite fmap_app, take_app_le by (rewrite !length_fmap, length_take; lia).
    rewrite take_ge by (rewrite !length_fmap, length_take; lia).
    rewrite <- list_fmap_compose. apply list_fmap_ext.
    intros j c Hc. simpl. apply (decode_row_of words word); [done|].
    apply lookup_take_Some in Hc as [Hc _]. by eapply list_elem_of_lookup_2.
  - intros t Ht. unfold rows_X. rewrite lookup_fill by done.
    rewrite decide_False by lia. by rewrite decide_True by lia.
Qed.

Lemma encoding_round_trip_witness :
  ∃ X Y x, encode cat_car_cap = inr (X, Y) ∧ X !! 1 = Some x ∧
    length x = MAX_WORD_LEN ∧
    take (length [99; 97; 114; 10]%N `min` MAX_WORD_LEN)
      (decode_rows (ix_to_char (chars cat_car_cap)) x)
    = Some <$> take (length [99; 97; 114; 10]%N `min` MAX_WORD_LEN)
                 [99; 97; 114; 10]%N ∧
    (∀ t, length [99; 97; 114; 10]%N ≤ t < MAX_WORD_LEN →
          x !! t = Some (replicate (length (chars cat_car_cap)) 0%Z)).
Proof. apply (encoding_round_trip cat_car_cap 1). reflexivity. Defined.

(** ** The generator *)

Section monad_facts.

Lemma bind_Done {A B} (m : M A) (f : A → M B) (w w'' : world) (b : B) :
  (m ≫= f) w = Done b w'' ↔ ∃ a w', m w = Done a w' ∧ f a w' = Done b w''.
Proof.
  unfold mbind, M_bind. destruct (m w) as [a w'| |]; split.
  - intros Hf. by exists a, w'.
  - by intros (? & ? & [= -> ->] & Hf).
  - done.
  - by intros (? & ? & ? & _).
  - done.
  - by intros (? & ? & ? & _).
Qed.

Lemma lift_Done {A} (m : except A) (w w' : world) (a : A) :
  lift m w = Done a w' ↔ m = inr a ∧ w' = w.
Proof.
  destruct m as [e|a0]; simpl; unfold raise, mret, M_ret; split.
  - done.
  - by intros [? _].
  - by intros [= -> ->].
  - by intros [[= ->] ->].
Qed.

Lemma bind_ext {A B} (m1 m2 : M A) (f1 f2 : A → M B) (w : world) :
  m1 w = m2 w →
  (∀ a w', m2 w = Done a w' → f1 a w' = f2 a w') →
  (m1 ≫= f1) w = (m2 ≫= f2) w.
Proof.
  intros Hm Hf. unfold mbind, M_bind. rewrite Hm.
  destruct (m2 w) as [a w'| |]; [by apply Hf|done..].
Qed.

Lemma bind_lift_inr {A B} (a : A) (f : A → M B) (w : world) :
  (lift (inr a) ≫= f) w = f a w.
Proof. done. Qed.

Lemma bind_turns_left {B} (f : nat → M B) (w : world) :
  (turns_left ≫= f) w = f (S (length (rng w))) w.
Proof. done. Qed.

Lemma np_random_choice_sampler : sampler np_random_choice.
Proof.
  intros n p w. unfold np_random_choice.
  destruct (decide (Np.distribution n p)); [|done].
  destruct w as [[|ix tape] out log]; simpl; [done|].
  destruct (decide (ix < n ∧ positive (p !!! ix))) as [[? _]|]; simpl; done.
Qed.

Lemma tape_choice_sampler : sampler tape_choice.
Proof.
  intros n p w. unfold tape_choice.
  destruct w as [[|ix tape] out log]; simpl; [done|].
  destruct (decide (ix < n)); simpl; done.
Qed.

(** On a distribution without zeros the two samplers agree. *)
Lemma np_random_choice_tape (n : nat) (p : list Np.float) (w : world) :
  Np.distribution n p → Forall positive p →
  np_random_choice n p w = tape_choice n p w.
Proof.
  intros Hd Hpos. unfold np_random_choice, tape_choice.
  rewrite decide_True by done. destruct (rng w) as [|ix tape]; [done|].
  destruct (decide (ix < n)) as [Hlt|Hge].
  - rewrite decide_True; [done|]. split; [done|].
    destruct Hd as (_ & Hlen & _). rewrite <- Hlen in Hlt.
    apply lookup_lt_is_Some in Hlt as [x Hx].
    rewrite (list_lookup_total_correct _ _ _ Hx).
    by eapply Forall_lookup_1 in Hpos.
  - rewrite decide_False; [done|]. by intros [? _].
Qed.

End monad_facts.

Lemma concat_singletons {A} (l : list A) : concat ((λ c, [c]) <$> l) = l.
Proof. induction l as [|c l IH]; [done|]. rewrite fmap_cons. simpl. by f_equal. Qed.

Section generator_facts.

Context (np_exp : Np.float → Np.float) (choice : nat → list Np.float → M nat).
Context (upper : str → str) (model : Type).
Context (predict : model → tensor Z → tensor Np.float).
Context (VOCAB_SIZE : nat) (i2c : gmap nat char).
Context (Hchoice : sampler choice).

Lemma choice_Done (p : list Np.float) (w w' : world) (ix : nat) :
  choice VOCAB_SIZE p w = Done ix w' →
  ix < VOCAB_SIZE ∧ rng w = ix :: rng w' ∧ stdout w' = stdout w
  ∧ keras w' = keras w.
Proof using Hchoice. intros H. pose proof (Hchoice VOCAB_SIZE p w) as Hs. by rewrite H in Hs. Qed.

Lemma first_index_spec (turns : nat) (p : list Np.float) (w w' : world)
    (ix : nat) :
  first_index choice VOCAB_SIZE turns p w = Done ix w' →
  ix ≠ 0 ∧ ix < VOCAB_SIZE ∧ stdout w' = stdout w ∧ keras w' = keras w.
Proof using Hchoice.
  revert w. induction turns as [|turns IH]; intros w H; [done|].
  simpl in H. apply bind_Done in H as (ix0 & w0 & Hdraw & H).
  apply choice_Done in Hdraw as (Hlt & _ & Hout & Hlog).
  destruct (decide (ix0 = 0)) as [->|Hne].
  - apply IH in H as (? & ? & ? & ?). repeat split; congruence.
  - injection H as <- <-. done.
Qed.

(** The loop of lines 133-140: the accepted index either passes the test
    of the loop, with nothing printed, or follows the message. *)
Lemma resample_spec (turns i min_word_length : nat) (p : list Np.float)
    (ix0 ctr : nat) (w w' : world) (ix : nat) :
  ix0 < VOCAB_SIZE →
  resample choice VOCAB_SIZE turns i min_word_length p ix0 ctr w = Done ix w' →
  ix < VOCAB_SIZE ∧ keras w' = keras w ∧
  ((stdout w' = stdout w ∧ ¬ (ix = 0 ∧ i < min_word_length))
   ∨ stdout w' = stdout w ++ [PrintStuck]).
Proof using Hchoice.
  revert ix0 ctr w. induction turns as [|turns IH]; intros ix0 ctr w Hix0 H.
  - simpl in H. case_decide; [done|]. injection H as <- <-. eauto.
  - simpl in H. case_decide as Hloop; [|injection H as <- <-; eauto].
    apply bind_Done in H as (ix1 & w1 & Hdraw & H).
    apply choice_Done in Hdraw as (Hlt & _ & Hout & Hlog).
    case_decide.
    + apply bind_Done in H as (u & w2 & Hprint & H).
      unfold print in Hprint. injection Hprint as _ <-.
      injection H as <- <-. simpl.
      split; [done|]. split; [done|]. right. by rewrite Hout.
    + apply IH in H as (? & ? & Hcase); [|done].
      split; [done|]. split; [congruence|]. rewrite <- Hout. done.
Qed.

Lemma next_index_spec (m : model) (temperature : Np.float)
    (min_word_length : nat) (X : tensor Z) (i : nat) (w w' : world) (ix : nat) :
  next_index np_exp choice model predict VOCAB_SIZE m temperature
    min_word_length X i w = Done ix w' →
  ix < VOCAB_SIZE ∧ keras w' = keras w ∧
  ((stdout w' = stdout w ∧ ¬ (ix = 0 ∧ i < min_word_length))
   ∨ stdout w' = stdout w ++ [PrintStuck]).
Proof using Hchoice.
  unfold next_index. intros H.
  apply bind_Done in H as (row & w0 & Hrow & H).
  apply lift_Done in Hrow as [_ ->].
  apply bind_Done in H as (ix0 & w1 & Hdraw & H).
  apply choice_Done in Hdraw as (Hlt & _ & Hout & Hlog).
  apply bind_Done in H as (turns & w2 & Hturns & H).
  injection Hturns as <- <-.
  apply resample_spec in H as (? & ? & Hcase); [|done].
  split; [done|]. split; [congruence|]. by rewrite <- Hout.
Qed.

(** The loop of lines 126-147 over the positions [a], ..., [a + n - 1]. *)
Lemma sample_rest_spec (m : model) (temperature : Np.float)
    (min_word_length : nat) (n a : nat) (X : tensor Z)
    (generated_word : list str) (w w' : world) (result : list str) :
  sample_rest np_exp choice model predict VOCAB_SIZE i2c m temperature
    min_word_length (seq a n) X generated_word w = Done result w' →
  ∃ (rest : str) (k : nat),
    result = generated_word ++ ((λ c, [c]) <$> rest) ∧
    length rest ≤ n ∧
    Forall (λ c, ∃ ix, ix ≠ 0 ∧ i2c !! ix = Some c) rest ∧
    stdout w' = stdout w ++ replicate k PrintStuck ∧
    keras w' = keras w ∧
    (k = 0 → length rest = n ∨ min_word_length ≤ a + length rest).
Proof using Hchoice.
  revert a X generated_word w.
  induction n as [|n IH]; intros a X gw w H; simpl in H.
  - injection H as <- <-. exists [], 0. simpl.
    rewrite !app_nil_r. split_and!; auto.
  - apply bind_Done in H as (ix & w1 & Hnext & H).
    apply next_index_spec in Hnext as (Hlt & Hlog & Hcase).
    apply bind_Done in H as (X' & w2 & HX & H).
    apply lift_Done in HX as [_ ->].
    assert (Hout : ∃ k1, stdout w1 = stdout w ++ replicate k1 PrintStuck ∧
                   (k1 = 0 → ¬ (ix = 0 ∧ a < min_word_length))).
    { destruct Hcase as [[-> ?]| ->].
      - exists 0. simpl. by rewrite app_nil_r.
      - exists 1. done. }
    destruct Hout as (k1 & Hout & Hk1).
    destruct (decide (ix = 0)) as [->|Hne].
    + injection H as <- <-. exists [], k1. simpl. rewrite app_nil_r.
      split_and!; auto; [lia|]. intros Hk. right. specialize (Hk1 Hk). lia.
    + apply bind_Done in H as (c & w3 & Hc & H).
      apply lift_Done in Hc as [Hc ->].
      apply IH in H as (rest & k2 & -> & Hlen & Hall & Hout2 & Hlog2 & Hk2).
      exists (c :: rest), (k1 + k2). simpl. split_and!.
      * by rewrite <- app_assoc.
      * lia.
      * constructor; [|done]. exists ix. split; [done|].
        unfold dict_get in Hc. by destruct (i2c !! ix); simplify_eq.
      * rewrite Hout2, Hout, replicate_add. by rewrite app_assoc.
      * congruence.
      * intros Hk. destruct Hk2 as [Hk2|Hk2]; [lia|left; lia|right; lia].
Qed.

(** Lines 112-149: what a returned word is made of. *)
Lemma generate_word_spec (m : model) (temperature : Np.float)
    (min_word_length : nat) (w w' : world) (word : str) :
  generate_word np_exp choice upper model predict VOCAB_SIZE i2c m temperature
    min_word_length w = Done word w' →
  ∃ (c : char) (rest : str) (k : nat),
    word = upper [c] ++ rest ∧
    (∃ ix, ix ≠ 0 ∧ i2c !! ix = Some c) ∧
    length rest ≤ MAX_WORD_LEN - 1 ∧
    Forall (λ c, ∃ ix, ix ≠ 0 ∧ i2c !! ix = Some c) rest ∧
    stdout w' = stdout w ++ replicate k PrintStuck ∧
    keras w' = keras w ∧
    (k = 0 → 1 + length rest = MAX_WORD_LEN
             ∨ min_word_length ≤ 1 + length rest).
Proof using Hchoice.
  unfold generate_word. intros H.
  apply bind_Done in H as (turns & w0 & Hturns & H).
  injection Hturns as <- <-.
  apply bind_Done in H as (ix & w1 & Hfirst & H).
  apply first_index_spec in Hfirst as (Hne & Hlt & Hout & Hlog).
  apply bind_Done in H as (X & w2 & HX & H).
  apply lift_Done in HX as [_ ->].
  apply bind_Done in H as (c & w3 & Hc & H).
  apply lift_Done in Hc as [Hc ->].
  apply bind_Done in H as (gw & w4 & Hrest & H).
  injection H as <- <-.
  apply sample_rest_spec in Hrest
    as (rest & k & -> & Hlen & Hall & Hout2 & Hlog2 & Hk).
  exists c, rest, k. split_and!.
  - simpl. f_equal. apply concat_singletons.
  - exists ix. split; [done|].
    unfold dict_get in Hc. by destruct (i2c !! ix); simplify_eq.
  - done.
  - done.
  - congruence.
  - congruence.
  - intros ->. unfold MAX_WORD_LEN in *.
    destruct (Hk eq_refl) as [Hk'|Hk']; [left|right]; simpl in *; lia.
Qed.

End generator_facts.

(** ** Running the generator on a tape *)

Section tape_facts.

Context (upper : str → str) (model : Type).
Context (predict : model → tensor Z → tensor Np.float).
Context (VOCAB_SIZE : nat) (i2c : gmap nat char).
Context (m : model) (t : R).
Context (Hmodel : well_formed predict VOCAB_SIZE m) (Ht : (0 < t)%R).

Lemma likely_temp_scale (d : list Np.float) :
  likely VOCAB_SIZE d → likely VOCAB_SIZE (temp_scale Np.exp d (Np.Fin t)).
Proof using Ht.
  intros [Hd Hpos]. split.
  - by apply temp_scale_distribution.
  - by eapply temp_scale_positive.
Qed.

Lemma shaped_zeros : shaped VOCAB_SIZE (zeros 1 MAX_WORD_LEN VOCAB_SIZE).
Proof.
  eexists. split; [done|]. split; [by rewrite length_replicate|].
  apply Forall_replicate. by rewrite length_replicate.
Qed.

Lemma shaped_setitem (X X' : tensor Z) (i ix : nat) (x : Z) :
  shaped VOCAB_SIZE X → setitem X 0 i ix x = inr X' → shaped VOCAB_SIZE X'.
Proof.
  intros (rows & -> & Hlen & Hall) H. unfold setitem, getitem in H. simpl in H.
  destruct (rows !! i) as [r|] eqn:Hr; simpl in H; [|done].
  case_decide; [|done]. injection H as <-. eexists. split; [done|]. split.
  - by rewrite length_insert.
  - apply Forall_insert; [done|]. rewrite length_insert.
    by eapply Forall_lookup_1 in Hall.
Qed.

(** The distribution that line 127 reads for position [i]. *)
Lemma predicted_row (X : tensor Z) (i : nat) :
  shaped VOCAB_SIZE X → 1 ≤ i ≤ MAX_WORD_LEN →
  ∃ d, at_time (predict m (take i <$> X)) (i - 1) = inr d ∧ likely VOCAB_SIZE d.
Proof using Hmodel.
  intros (rows & -> & Hlen & Hall) Hi. simpl.
  destruct (Hmodel (take i rows)) as (out & -> & Hout & Hlikely).
  { by apply Forall_take. }
  rewrite length_take in Hout.
  destruct (out !! (i - 1)) as [d|] eqn:Hd;
    [|apply lookup_ge_None in Hd; lia].
  exists d. split.
  - unfold at_time, getitem. simpl. rewrite Hd. simpl. by rewrite app_nil_r.
  - by eapply Forall_lookup_1 in Hlikely.
Qed.

(** The distribution that line 116 reads. *)
Lemma predicted_first (X : tensor Z) :
  shaped VOCAB_SIZE X →
  likely VOCAB_SIZE (concat (concat (predict m (take 1 <$> X)))).
Proof using Hmodel.
  intros (rows & -> & Hlen & Hall). simpl.
  destruct (Hmodel (take 1 rows)) as (out & -> & Hout & Hlikely).
  { by apply Forall_take. }
  rewrite length_take, Hlen in Hout. change (length out = 1) in Hout.
  destruct out as [|d [|]]; try done.
  simpl. rewrite !app_nil_r. by inversion Hlikely.
Qed.

Lemma first_index_tape (turns : nat) (p : list Np.float) (w : world) :
  likely VOCAB_SIZE p →
  first_index np_random_choice VOCAB_SIZE turns p w
  = first_index tape_choice VOCAB_SIZE turns p w.
Proof.
  intros [Hd Hpos]. revert w. induction turns as [|turns IH]; intros w; [done|].
  simpl. apply bind_ext; [by apply np_random_choice_tape|].
  intros ix w' _. case_decide; [apply IH|done].
Qed.

Lemma resample_tape (turns i min_word_length : nat) (p : list Np.float)
    (ix0 ctr : nat) (w : world) :
  likely VOCAB_SIZE p →
  resample np_random_choice VOCAB_SIZE turns i min_word_length p ix0 ctr w
  = resample tape_choice VOCAB_SIZE turns i min_word_length p ix0 ctr w.
Proof.
  intros [Hd Hpos]. revert ix0 ctr w.
  induction turns as [|turns IH]; intros ix0 ctr w; [done|].
  simpl. case_decide; [|done].
  apply bind_ext; [by apply np_random_choice_tape|].
  intros ix w' _. case_decide; [done|apply IH].
Qed.

Lemma next_index_tape (min_word_length : nat) (X : tensor Z) (i : nat)
    (w : world) :
  shaped VOCAB_SIZE X → 1 ≤ i ≤ MAX_WORD_LEN →
  next_index Np.exp np_random_choice model predict VOCAB_SIZE m (Np.Fin t)
    min_word_length X i w
  = next_index Np.exp tape_choice model predict VOCAB_SIZE m (Np.Fin t)
      min_word_length X i w.
Proof using Hmodel Ht.
  intros HX Hi. unfold next_index.
  destruct (predicted_row X i HX Hi) as (d & -> & Hd%likely_temp_scale).
  rewrite !bind_lift_inr.
  apply bind_ext; [apply np_random_choice_tape; apply Hd|].
  intros ix w' _. rewrite !bind_turns_left. by apply resample_tape.
Qed.

Lemma sample_rest_tape (min_word_length : nat) (ixs : list nat)
    (X : tensor Z) (generated_word : list str) (w : world) :
  shaped VOCAB_SIZE X → Forall (λ i, 1 ≤ i ≤ MAX_WORD_LEN) ixs →
  sample_rest Np.exp np_random_choice model predict VOCAB_SIZE i2c m (Np.Fin t)
    min_word_length ixs X generated_word w
  = sample_rest Np.exp tape_choice model predict VOCAB_SIZE i2c m (Np.Fin t)
      min_word_length ixs X generated_word w.
Proof using Hmodel Ht.
  revert X generated_word w.
  induction ixs as [|i ixs IH]; intros X gw w HX Hixs; [done|].
  inversion Hixs as [|? ? Hi Hrest]; subst. simpl.
  apply bind_ext; [by apply next_index_tape|].
  intros ix w' _. apply bind_ext; [done|].
  intros X' w'' [HX' ->]%lift_Done.
  case_decide; [done|]. apply bind_ext; [done|].
  intros c w3 _. apply IH; [|done]. by eapply shaped_setitem.
Qed.

Lemma generate_word_tape (min_word_length : nat) (w : world) :
  generate_word Np.exp np_random_choice upper model predict VOCAB_SIZE i2c m
    (Np.Fin t) min_word_length w
  = generate_word Np.exp tape_choice upper model predict VOCAB_SIZE i2c m
      (Np.Fin t) min_word_length w.
Proof using Hmodel Ht.
  unfold generate_word. rewrite !bind_turns_left.
  apply bind_ext.
  { by apply first_index_tape, likely_temp_scale, predicted_first, shaped_zeros. }
  intros ix w' _. apply bind_ext; [done|].
  intros X' w'' [HX' ->]%lift_Done. apply bind_ext; [done|].
  intros c w3 _. apply bind_ext; [|done].
  apply sample_rest_tape.
  - eapply shaped_setitem; [apply shaped_zeros|done].
  - apply Forall_forall. intros i Hi%elem_of_seq. unfold MAX_WORD_LEN in *. lia.
Qed.

Lemma print_words_tape (n : nat) (w : world) :
  print_words Np.exp np_random_choice upper model predict VOCAB_SIZE i2c m
    (Np.Fin t) n w
  = print_words Np.exp tape_choice upper model predict VOCAB_SIZE i2c m
      (Np.Fin t) n w.
Proof using Hmodel Ht.
  revert w. induction n as [|n IH]; intros w; [done|]. simpl.
  apply bind_ext; [by apply generate_word_tape|].
  intros word w' _. apply bind_ext; [done|]. intros _ w'' _. apply IH.
Qed.

End tape_facts.

Section uniform_facts.
Local Open Scope R_scope.

Lemma Rsum_replicate (n : nat) (x : R) : Rsum (replicate n x) = INR n * x.
Proof.
  induction n as [|n IH]; [simpl; lra|].
  rewrite S_INR. simpl. rewrite IH. lra.
Qed.

Lemma likely_uniform (v : nat) : (0 < v)%nat → likely v (uniform v).
Proof.
  intros Hv. assert (0 < INR v) by (by apply lt_0_INR).
  unfold uniform. split.
  - pose proof (distribution_fin (replicate v (1 / INR v))) as Hd.
    unfold fin in Hd. rewrite fmap_replicate, length_replicate in Hd.
    apply Hd. split.
    + apply Forall_replicate. apply Rlt_le, Rdiv_lt_0_compat; lra.
    + rewrite Rsum_replicate. field. lra.
  - apply Forall_replicate. simpl. apply Rdiv_lt_0_compat; lra.
Qed.


Lemma well_formed_uniform (v : nat) :
  (0 < v)%nat → well_formed uniform_predict v ().
Proof.
  intros Hv rows Hrows. eexists. split; [done|]. split.
  - by rewrite length_map.
  - apply Forall_fmap. eapply Forall_impl; [done|].
    intros r Hr. simpl in *. rewrite Hr. by apply likely_uniform.
Qed.

End uniform_facts.

(** ** The words that [generate_word] returns *)

(** C3, as amended.  A word returned by [generate_word] is the upper-cased
    form of a first character of non-zero index followed by at most
    [L - 1 = 11] characters of non-zero index.  When that upper-cased form
    is one character long the word has between 1 and [L = 12] characters
    and, unless the message of the resampling cap was printed, at least
    [min(min_word_length, L)]; the word does not contain the character of
    index 0 unless upper-casing produced it. *)
Theorem generate_word_contract (np_exp : Np.float → Np.float)
    (upper : str → str) (model : Type)
    (predict : model → tensor Z → tensor Np.float) (words : list str)
    (m : model) (temperature : Np.float) (min_word_length : nat)
    (w w' : world) (word : str) :
  generate_word np_exp np_random_choice upper model predict
    (length (chars words)) (ix_to_char (chars words)) m temperature
    min_word_length w = Done word w' →
  ∃ (c : char) (rest : str) (k : nat),
    word = upper [c] ++ rest ∧
    (c ∈ chars words ∧ chars words !! 0 ≠ Some c) ∧
    length rest ≤ MAX_WORD_LEN - 1 ∧
    Forall (λ c', c' ∈ chars words ∧ chars words !! 0 ≠ Some c') rest ∧
    stdout w' = stdout w ++ replicate k PrintStuck ∧
    (length (upper [c]) = 1 →
     1 ≤ length word ≤ MAX_WORD_LEN ∧
     (k = 0 → min_word_length `min` MAX_WORD_LEN ≤ length word)) ∧
    (∀ marker, chars words !! 0 = Some marker → marker ∉ upper [c] →
               marker ∉ word).
Proof.
  intros H.
  apply (generate_word_spec _ _ _ _ _ _ _ np_random_choice_sampler) in H
    as (c & rest & k & -> & Hc & Hlen & Hrest & Hout & _ & Hk).
  assert (Hvocab : ∀ c', (∃ ix, ix ≠ 0 ∧ ix_to_char (chars words) !! ix = Some c')
                         → c' ∈ chars words ∧ chars words !! 0 ≠ Some c').
  { intros c' (ix & Hne & Hix). rewrite ix_to_char_lookup in Hix. split.
    - by eapply list_elem_of_lookup_2.
    - intros H0. apply Hne.
      by eapply (NoDup_lookup (chars words)); [apply chars_NoDup|..]. }
  exists c, rest, k.
  split; [done|]. split; [by apply Hvocab|]. split; [done|].
  split; [eapply Forall_impl; [done|]; apply Hvocab|].
  split; [done|]. split.
  - intros Hone. rewrite length_app, Hone. unfold MAX_WORD_LEN in *.
    split; [lia|]. intros Hk0. destruct (Hk Hk0); lia.
  - intros marker H0 Hup [Hin|Hin]%elem_of_app; [done|].
    eapply Forall_forall in Hrest as (ix & Hne & Hix); [|done].
    rewrite ix_to_char_lookup in Hix. apply Hne.
    by eapply (NoDup_lookup (chars words)); [apply chars_NoDup|..].
Qed.

Lemma generate_word_contract_witness :
  ∃ (c : char) (rest : str) (k : nat),
    [67; 97; 116; 112]%N = latin1_upper [c] ++ rest ∧
    (c ∈ chars cat_car_cap ∧ chars cat_car_cap !! 0 ≠ Some c) ∧
    length rest ≤ MAX_WORD_LEN - 1 ∧
    Forall (λ c', c' ∈ chars cat_car_cap ∧ chars cat_car_cap !! 0 ≠ Some c')
      rest ∧
    stdout (tape []) = stdout (tape [2; 1; 5; 0; 3; 0])
                       ++ replicate k PrintStuck ∧
    (length (latin1_upper [c]) = 1 →
     1 ≤ length [67; 97; 116; 112]%N ≤ MAX_WORD_LEN ∧
     (k = 0 → 4 `min` MAX_WORD_LEN ≤ length [67; 97; 116; 112]%N)) ∧
    (∀ marker, chars cat_car_cap !! 0 = Some marker →
               marker ∉ latin1_upper [c] → marker ∉ [67; 97; 116; 112]%N).
Proof.
  apply (generate_word_contract Np.exp latin1_upper unit uniform_predict
           cat_car_cap () (Np.Fin 1) 4 (tape [2; 1; 5; 0; 3; 0]) (tape [])).
  rewrite generate_word_tape.
  - vm_compute. reflexivity.
  - apply well_formed_uniform. vm_compute. lia.
  - lra.
Defined.

(** C3, as stated, fails in two ways.  [str.upper] turns the first
    character [ß] into [SS], so that a word of 12 sampled characters has
    13; and with [min_word_length = 13] a word of 12 characters is
    returned although the cap was never reached. *)
Lemma generate_word_contract_counterexample :
  generate_word Np.exp np_random_choice latin1_upper unit uniform_predict
    (length (chars [[223; 97; 10]%N])) (ix_to_char (chars [[223; 97; 10]%N]))
    () (Np.Fin 1) 4 (tape (2 :: replicate 11 1))
  = Done ([83; 83]%N ++ replicate 11 97%N) (tape []) ∧
  length ([83; 83]%N ++ replicate 11 97%N) = 13 ∧
  generate_word Np.exp np_random_choice latin1_upper unit uniform_predict
    (length (chars cat_car_cap)) (ix_to_char (chars cat_car_cap))
    () (Np.Fin 1) 13 (tape (2 :: replicate 11 1))
  = Done (67%N :: replicate 11 97%N) (tape []) ∧
  length (67%N :: replicate 11 97%N) = 12.
Proof.
  split_and!; try done.
  - rewrite generate_word_tape.
    + vm_compute. reflexivity.
    + apply well_formed_uniform. vm_compute. lia.
    + lra.
  - rewrite generate_word_tape.
    + vm_compute. reflexivity.
    + apply well_formed_uniform. vm_compute. lia.
    + lra.
Qed.

(** ** The resampling cap *)

Section cap_facts.

Context (choice : nat → list Np.float → M nat) (VOCAB_SIZE : nat).
Context (Hchoice : sampler choice).


Lemma np_random_choice_distribution (n : nat) (p : list Np.float) (w : world) :
  Np.distribution n p →
  np_random_choice n p w
  = match rng w with
    | [] => Starved w
    | ix :: outcomes =>
        if decide (ix < n ∧ positive (p !!! ix))
        then Done ix (World outcomes (stdout w) (keras w))
        else Starved w
    end.
Proof. intros Hp. unfold np_random_choice. by rewrite decide_True. Qed.

(** With a distribution for [p] the loop of the script raises nothing. *)
Lemma resample_safe (turns i min_word_length : nat) (p : list Np.float)
    (ix0 ctr : nat) (w : world) :
  Np.distribution VOCAB_SIZE p →
  ∀ e w', resample np_random_choice VOCAB_SIZE turns i min_word_length p
            ix0 ctr w ≠ Raised e w'.
Proof.
  intros Hp. revert ix0 ctr w.
  induction turns as [|turns IH]; intros ix0 ctr w e w'; simpl.
  - by case_decide.
  - case_decide; [|done]. unfold mbind, M_bind.
    rewrite np_random_choice_distribution by done.
    destruct (rng w) as [|ix1 outcomes]; [done|].
    case_decide; [|done]. case_decide; [done|]. apply IH.
Qed.


End cap_facts.




(** ** The script: training, loading, saving *)

Section quiet_facts.

Lemma quiet_bind {A B} (m : M A) (f : A → M B) :
  quiet m → (∀ a, quiet (f a)) → quiet (m ≫= f).
Proof.
  intros Hm Hf w. unfold mbind, M_bind. specialize (Hm w).
  destruct (m w) as [a w'| |]; simpl in *; [|done..].
  by rewrite Hf.
Qed.

Lemma quiet_ret {A} (a : A) : quiet (mret a).
Proof. done. Qed.

Lemma quiet_lift {A} (m : except A) : quiet (lift m).
Proof. by destruct m. Qed.

Lemma quiet_print (o : output) : quiet (print o).
Proof. done. Qed.

Lemma quiet_turns_left : quiet turns_left.
Proof. done. Qed.

Context (np_exp : Np.float → Np.float) (choice : nat → list Np.float → M nat).
Context (upper : str → str) (model : Type).
Context (predict : model → tensor Z → tensor Np.float).
Context (VOCAB_SIZE : nat) (i2c : gmap nat char).
Context (Hchoice : sampler choice).

Lemma quiet_choice (n : nat) (p : list Np.float) : quiet (choice n p).
Proof using Hchoice.
  intros w. pose proof (Hchoice n p w) as Hs.
  destruct (choice n p w); simpl; [by destruct Hs as (_ & _ & _ & ?)|by subst..].
Qed.

Lemma quiet_first_index (turns : nat) (p : list Np.float) :
  quiet (first_index choice VOCAB_SIZE turns p).
Proof using Hchoice.
  induction turns as [|turns IH]; [done|]. simpl.
  apply quiet_bind; [apply quiet_choice|]. intros ix. by case_decide.
Qed.

Lemma quiet_resample (turns i min_word_length : nat) (p : list Np.float)
    (ix0 ctr : nat) :
  quiet (resample choice VOCAB_SIZE turns i min_word_length p ix0 ctr).
Proof using Hchoice.
  revert ix0 ctr. induction turns as [|turns IH]; intros ix0 ctr; simpl.
  - by case_decide.
  - case_decide; [|done]. apply quiet_bind; [apply quiet_choice|].
    intros ix. case_decide; [|apply IH].
    apply quiet_bind; [apply quiet_print|done].
Qed.

Lemma quiet_next_index (m : model) (temperature : Np.float)
    (min_word_length : nat) (X : tensor Z) (i : nat) :
  quiet (next_index np_exp choice model predict VOCAB_SIZE m temperature
           min_word_length X i).
Proof using Hchoice.
  unfold next_index. apply quiet_bind; [apply quiet_lift|]. intros row.
  apply quiet_bind; [apply quiet_choice|]. intros ix.
  apply quiet_bind; [apply quiet_turns_left|]. intros turns.
  apply quiet_resample.
Qed.

Lemma quiet_sample_rest (m : model) (temperature : Np.float)
    (min_word_length : nat) (ixs : list nat) (X : tensor Z)
    (generated_word : list str) :
  quiet (sample_rest np_exp choice model predict VOCAB_SIZE i2c m temperature
           min_word_length ixs X generated_word).
Proof using Hchoice.
  revert X generated_word. induction ixs as [|i ixs IH]; intros X gw; [done|].
  simpl. apply quiet_bind; [apply quiet_next_index|]. intros ix.
  apply quiet_bind; [apply quiet_lift|]. intros X'.
  case_decide; [done|].
  apply quiet_bind; [apply quiet_lift|]. intros c. apply IH.
Qed.

Lemma quiet_generate_word (m : model) (temperature : Np.float)
    (min_word_length : nat) :
  quiet (generate_word np_exp choice upper model predict VOCAB_SIZE i2c m
           temperature min_word_length).
Proof using Hchoice.
  unfold generate_word.
  apply quiet_bind; [apply quiet_turns_left|]. intros turns.
  apply quiet_bind; [apply quiet_first_index|]. intros ix.
  apply quiet_bind; [apply quiet_lift|]. intros X.
  apply quiet_bind; [apply quiet_lift|]. intros c.
  apply quiet_bind; [apply quiet_sample_rest|]. done.
Qed.

Lemma quiet_print_words (m : model) (temperature : Np.float) (n : nat) :
  quiet (print_words np_exp choice upper model predict VOCAB_SIZE i2c m
           temperature n).
Proof using Hchoice.
  induction n as [|n IH]; [done|]. simpl.
  apply quiet_bind; [apply quiet_generate_word|]. intros word.
  apply quiet_bind; [apply quiet_print|]. done.
Qed.

Lemma quiet_on_epoch_end (args : arguments) (m : model) (epoch : nat) :
  quiet (on_epoch_end np_exp choice upper model predict VOCAB_SIZE i2c args m
           epoch).
Proof using Hchoice.
  unfold on_epoch_end. destruct (_ && _); [|done].
  apply quiet_bind; [apply quiet_generate_word|]. intros word.
  apply quiet_print.
Qed.

End quiet_facts.

Section script_facts.

Lemma final_bind {A B} (m : M A) (f : A → M B) (w : world) :
  final ((m ≫= f) w)
  = match m w with
    | Done a w' => final (f a w')
    | Raised _ w' | Starved w' => w'
    end.
Proof. unfold mbind, M_bind. by destruct (m w). Qed.

Context (np_exp : Np.float → Np.float) (choice : nat → list Np.float → M nat).
Context (upper : str → str) (model : Type).
Context (predict : model → tensor Z → tensor Np.float).
Context (train_epoch : model → tensor Z → tensor Z → nat → model).
Context (Sequential : nat → model) (load_model : str → except model).
Context (text_to_words : str → list str).
Context (Hchoice : sampler choice).

Lemma fit_epochs_cons (VOCAB_SIZE : nat) (i2c : gmap nat char)
    (args : arguments) (X Y : tensor Z) (batch_size epoch : nat)
    (epochs : list nat) (m : model) (w : world) :
  fit_epochs np_exp choice upper model predict train_epoch VOCAB_SIZE i2c
    args X Y batch_size (epoch :: epochs) m w
  = (on_epoch_end np_exp choice upper model predict VOCAB_SIZE i2c args
       (train_epoch m X Y batch_size) epoch
     ≫= λ _, fit_epochs np_exp choice upper model predict train_epoch
               VOCAB_SIZE i2c args X Y batch_size epochs
               (train_epoch m X Y batch_size))
      (World (rng w) (stdout w) (keras w ++ [TrainEpoch epoch])).
Proof. done. Qed.

(** The calls of the training loop: one per epoch begun, all of them when
    the loop completes. *)
Lemma fit_epochs_log (VOCAB_SIZE : nat) (i2c : gmap nat char)
    (args : arguments) (X Y : tensor Z) (batch_size : nat)
    (epochs : list nat) (m : model) (w : world) :
  ∃ k, k ≤ length epochs ∧
    keras (final (fit_epochs np_exp choice upper model predict train_epoch
                    VOCAB_SIZE i2c args X Y batch_size epochs m w))
    = keras w ++ (TrainEpoch <$> take k epochs) ∧
    (∀ m' w', fit_epochs np_exp choice upper model predict train_epoch
                VOCAB_SIZE i2c args X Y batch_size epochs m w = Done m' w' →
              k = length epochs).
Proof using Hchoice.
  revert m w. induction epochs as [|epoch epochs IH]; intros m w.
  - exists 0. simpl. by rewrite app_nil_r.
  - rewrite fit_epochs_cons.
    set (w1 := World (rng w) (stdout w) (keras w ++ [TrainEpoch epoch])).
    set (m1 := train_epoch m X Y batch_size).
    pose proof (quiet_on_epoch_end np_exp choice upper model predict
                  VOCAB_SIZE i2c Hchoice args m1 epoch w1) as Hquiet.
    unfold mbind, M_bind.
    destruct (on_epoch_end _ _ _ _ _ _ _ _ _ _ w1) as [u w2| |] eqn:Hend;
      simpl in Hquiet.
    + destruct (IH m1 w2) as (k & Hk & Hlog & Hdone).
      exists (S k). split; [simpl; lia|]. split.
      * rewrite Hlog, Hquiet. simpl. by rewrite <- app_assoc.
      * intros m' w' H. simpl. f_equal. by eapply Hdone.
    + exists 1. split; [simpl; lia|]. split; [|done].
      simpl. by rewrite Hquiet.
    + exists 1. split; [simpl; lia|]. split; [|done].
      simpl. by rewrite Hquiet.
Qed.

(** The script with a load path: the corpus report, the loading, and the
    words from the loaded model.  Neither the save path nor the epoch
    option occurs. *)
Lemma main_load (args : arguments) (path : str) (w : world) :
  modelpath args = Some path →
  let words := text_to_words (wordlist args) in
  main np_exp choice upper model predict train_epoch Sequential load_model
    text_to_words args w
  = ((if verbose args
      then print (PrintCorpus (length words) (chars words) (take 2 words))
      else mret ());;
     record (Load path);;
     m ← lift (load_model path);
     print_words np_exp choice upper model predict (length (chars words))
       (ix_to_char (chars words)) m (temperature args)
       (Z.to_nat (nwords args))) w.
Proof.
  intros Hpath. unfold main. rewrite Hpath, encode_closed.
  unfold mbind, M_bind. by destruct (verbose args).
Qed.

(** The script without a load path. *)
Lemma main_fit (args : arguments) (w : world) :
  modelpath args = None →
  let words := text_to_words (wordlist args) in
  ∃ X Y, encode words = inr (X, Y) ∧
  main np_exp choice upper model predict train_epoch Sequential load_model
    text_to_words args w
  = ((if verbose args
      then print (PrintCorpus (length words) (chars words) (take 2 words))
      else mret ());;
     m ← fit np_exp choice upper model predict train_epoch
           (length (chars words)) (ix_to_char (chars words)) args
           (Sequential (length (chars words))) X Y BATCH_SIZE NUM_EPOCHS;
     match savepath args with
     | Some path => record (Save path)
     | None => mret ()
     end;;
     print_words np_exp choice upper model predict (length (chars words))
       (ix_to_char (chars words)) m (temperature args)
       (Z.to_nat (nwords args))) w.
Proof.
  intros Hpath. simpl. eexists _, _. split; [apply encode_closed|].
  unfold main. rewrite Hpath, encode_closed.
  unfold mbind, M_bind. destruct (verbose args); simpl.
  - destruct (fit _ _ _ _ _ _ _ _ _ _ _ _ _ _ _) as [m1 w1| |]; [|done..].
    by destruct (savepath args).
  - destruct (fit _ _ _ _ _ _ _ _ _ _ _ _ _ _ _) as [m1 w1| |]; [|done..].
    by destruct (savepath args).
Qed.

Lemma fit_unfold (VOCAB_SIZE : nat) (i2c : gmap nat char) (args : arguments)
    (m : model) (X Y : tensor Z) (batch_size epochs : nat) (w : world) :
  fit np_exp choice upper model predict train_epoch VOCAB_SIZE i2c args m X Y
    batch_size epochs w
  = fit_epochs np_exp choice upper model predict train_epoch VOCAB_SIZE i2c
      args X Y batch_size (seq 0 epochs) m
      (World (rng w) (stdout w) (keras w ++ [Fit batch_size epochs])).
Proof. reflexivity. Qed.

(** The Keras calls of a run that trains for [epochs] epochs. *)
Lemma train_log (VOCAB_SIZE : nat) (i2c : gmap nat char) (args : arguments)
    (m : model) (X Y : tensor Z) (batch_size epochs : nat) (pre : M ())
    (w : world) :
  (∃ w0, pre w = Done () w0 ∧ keras w0 = keras w) →
  let run :=
    (pre;;
     m ← fit np_exp choice upper model predict train_epoch VOCAB_SIZE i2c args
           m X Y batch_size epochs;
     match savepath args with
     | Some path => record (Save path)
     | None => mret ()
     end;;
     print_words np_exp choice upper model predict VOCAB_SIZE i2c m
       (temperature args) (Z.to_nat (nwords args))) w in
  ∃ k save,
    keras (final run)
    = keras w ++ Fit batch_size epochs :: (TrainEpoch <$> seq 0 k) ++ save ∧
    k ≤ epochs ∧
    (∀ w', run = Done () w' →
           k = epochs ∧
           save = match savepath args with
                  | Some path => [Save path]
                  | None => []
                  end).
Proof using Hchoice.
  intros (w0 & Hpre & Hlog0) run.
  set (w1 := World (rng w0) (stdout w0) (keras w0 ++ [Fit batch_size epochs])).
  set (saved := λ w2 : world,
         match savepath args with
         | Some path => World (rng w2) (stdout w2) (keras w2 ++ [Save path])
         | None => w2
         end).
  assert (Hrun : run
    = match fit_epochs np_exp choice upper model predict train_epoch VOCAB_SIZE
              i2c args X Y batch_size (seq 0 epochs) m w1 with
      | Done m1 w2 =>
          print_words np_exp choice upper model predict VOCAB_SIZE i2c m1
            (temperature args) (Z.to_nat (nwords args)) (saved w2)
      | Raised e w' => Raised e w'
      | Starved w' => Starved w'
      end).
  { unfold run, saved, mbind, M_bind. rewrite Hpre, fit_unfold. fold w1.
    destruct (fit_epochs _ _ _ _ _ _ _ _ _ _ _ _ _ _ w1); [|done..].
    by destruct (savepath args). }
  clearbody run. subst run.
  destruct (fit_epochs_log VOCAB_SIZE i2c args X Y batch_size
              (seq 0 epochs) m w1) as (k & Hk & Hlog & Hdone).
  rewrite length_seq in Hk, Hdone. rewrite take_seq in Hlog.
  replace (k `min` epochs) with k in Hlog by lia.
  unfold w1 in Hlog at 2. cbn [keras] in Hlog. rewrite Hlog0 in Hlog.
  destruct (fit_epochs _ _ _ _ _ _ _ _ _ _ _ _ _ _ w1) as [m1 w2| |] eqn:Hfit;
    cbn [final] in Hlog.
  - specialize (Hdone m1 w2 eq_refl). subst k.
    rewrite (quiet_print_words np_exp choice upper model predict
               VOCAB_SIZE i2c Hchoice m1 (temperature args)
               (Z.to_nat (nwords args)) (saved w2)).
    exists epochs. unfold saved. destruct (savepath args) as [path|].
    + exists [Save path]. cbn [keras]. rewrite Hlog, <- !app_assoc. done.
    + exists []. rewrite Hlog, <- !app_assoc, app_nil_r. done.
  - exists k, []. cbn [final]. rewrite Hlog, <- !app_assoc, app_nil_r. done.
  - exists k, []. cbn [final]. rewrite Hlog, <- !app_assoc, app_nil_r. done.
Qed.

End script_facts.


(** C1.  The script does not train for the count given with [--epochs]:
    without a load path it calls [fit] with [epochs = NUM_EPOCHS = 500]
    and trains up to 500 epochs, all 500 when the run completes, whatever
    the value [e] of the option is. *)
Theorem epochs_option_unused (np_exp : Np.float → Np.float)
    (upper : str → str) (model : Type)
    (predict : model → tensor Z → tensor Np.float)
    (train_epoch : model → tensor Z → tensor Z → nat → model)
    (Sequential : nat → model) (load_model : str → except model)
    (text_to_words : str → list str)
    (wl : str) (sp : option str) (t : Np.float) (nw e : Z) (v : bool)
    (w : world) :
  NUM_EPOCHS = 500 ∧
  ∃ k save,
    keras (final (main np_exp np_random_choice upper model predict train_epoch
                    Sequential load_model text_to_words
                    (Arguments wl sp None t nw e v) w))
    = keras w ++ Fit BATCH_SIZE NUM_EPOCHS :: (TrainEpoch <$> seq 0 k) ++ save ∧
    k ≤ NUM_EPOCHS ∧
    (∀ w', main np_exp np_random_choice upper model predict train_epoch
             Sequential load_model text_to_words
             (Arguments wl sp None t nw e v) w = Done () w' →
           k = NUM_EPOCHS ∧
           save = match sp with Some path => [Save path] | None => [] end).
Proof.
  split; [reflexivity|].
  destruct (main_fit np_exp np_random_choice upper model predict train_epoch
              Sequential load_model text_to_words
              (Arguments wl sp None t nw e v) w eq_refl)
    as (X & Y & _ & ->).
  apply (train_log np_exp np_random_choice upper model predict train_epoch
           np_random_choice_sampler _ _ (Arguments wl sp None t nw e v)).
  destruct v; by eexists.
Qed.

(** At [--epochs 100], with no word to sample, the run trains 500 epochs. *)
Example epochs_100_trains_500 :
  main Np.exp np_random_choice latin1_upper unit uniform_predict uniform_train
    (λ _, ()) uniform_load (λ _, cat_car_cap)
    (Arguments [119%N] None None (Np.Fin 1) 0 100 false) (tape [])
  = Done () (World [] [] (Fit 64 500 :: (TrainEpoch <$> seq 0 500))).
Proof. vm_compute. reflexivity. Qed.

(** C10.  With a load path the only Keras call of the run, however it
    ends, is the loading: no [fit], no epoch, no [save], whatever the save
    path is; and the run is the corpus report, the loading, and the words
    generated from the loaded model. *)
Theorem load_skips_training_and_saving (np_exp : Np.float → Np.float)
    (upper : str → str) (model : Type)
    (predict : model → tensor Z → tensor Np.float)
    (train_epoch : model → tensor Z → tensor Z → nat → model)
    (Sequential : nat → model) (load_model : str → except model)
    (text_to_words : str → list str)
    (args : arguments) (path : str) (w : world) :
  modelpath args = Some path →
  keras (final (main np_exp np_random_choice upper model predict train_epoch
                  Sequential load_model text_to_words args w))
  = keras w ++ [Load path] ∧
  (∀ m, load_model path = inr m →
     main np_exp np_random_choice upper model predict train_epoch
       Sequential load_model text_to_words args w
     = ((if verbose args
         then print (PrintCorpus (length (text_to_words (wordlist args)))
                       (chars (text_to_words (wordlist args)))
                       (take 2 (text_to_words (wordlist args))))
         else mret ());;
        record (Load path);;
        print_words np_exp np_random_choice upper model predict
          (length (chars (text_to_words (wordlist args))))
          (ix_to_char (chars (text_to_words (wordlist args)))) m
          (temperature args) (Z.to_nat (nwords args))) w).
Proof.
  intros Hpath.
  rewrite (main_load np_exp np_random_choice upper model predict train_epoch
             Sequential load_model text_to_words args path w Hpath).
  pose proof (quiet_print_words np_exp np_random_choice upper model predict
                (length (chars (text_to_words (wordlist args))))
                (ix_to_char (chars (text_to_words (wordlist args))))
                np_random_choice_sampler) as Hquiet.
  split.
  - unfold mbind, M_bind.
    destruct (verbose args); simpl;
      (destruct (load_model path) as [err|m]; simpl; [by rewrite app_nil_r || done|]);
      by rewrite Hquiet.
  - intros m Hm. rewrite Hm. unfold mbind, M_bind.
    by destruct (verbose args).
Qed.

Lemma load_skips_training_and_saving_witness :
  keras (final (main Np.exp np_random_choice latin1_upper unit uniform_predict
                  uniform_train (λ _, ()) uniform_load (λ _, cat_car_cap)
                  (Arguments [] (Some [115%N]) (Some [109%N]) (Np.Fin 1) 2 100
                     false)
                  (tape [2; 1; 5; 0; 3; 0; 2; 1; 4; 1; 0])))
  = [] ++ [Load [109%N]].
Proof.
  apply (load_skips_training_and_saving Np.exp latin1_upper unit
           uniform_predict uniform_train (λ _, ()) uniform_load
           (λ _, cat_car_cap)
           (Arguments [] (Some [115%N]) (Some [109%N]) (Np.Fin 1) 2 100 false)
           [109%N]).
  reflexivity.
Defined.

(** ** Runs that raise nothing *)

Section sampled_facts.

Context (ok : nat → list Np.float → Prop).
Context (np_exp : Np.float → Np.float) (temperature : Np.float).
Context (model : Type) (predict : model → tensor Z → tensor Np.float).
Context (VOCAB_SIZE : nat) (m : model).
Context (Hsampled : sampled ok np_exp temperature predict VOCAB_SIZE m).

(** What line 127 gives to the sampler for position [i]. *)
Lemma sampled_row (X : tensor Z) (i : nat) :
  shaped VOCAB_SIZE X → 1 ≤ i ≤ MAX_WORD_LEN →
  ∃ d, at_time (predict m (take i <$> X)) (i - 1) = inr d
       ∧ ok VOCAB_SIZE (temp_scale np_exp d temperature).
Proof using Hsampled.
  intros (rows & -> & Hlen & Hall) Hi. simpl.
  destruct (Hsampled (take i rows)) as (out & -> & Hout & Hok).
  { by apply Forall_take. }
  rewrite length_take in Hout.
  destruct (out !! (i - 1)) as [d|] eqn:Hd;
    [|apply lookup_ge_None in Hd; lia].
  exists d. split.
  - unfold at_time, getitem. simpl. rewrite Hd. simpl. by rewrite app_nil_r.
  - by eapply Forall_lookup_1 in Hok.
Qed.

(** What line 116 gives to the sampler. *)
Lemma sampled_first (X : tensor Z) :
  shaped VOCAB_SIZE X →
  ok VOCAB_SIZE
    (temp_scale np_exp (concat (concat (predict m (take 1 <$> X))))
       temperature).
Proof using Hsampled.
  intros (rows & -> & Hlen & Hall). simpl.
  destruct (Hsampled (take 1 rows)) as (out & -> & Hout & Hok).
  { by apply Forall_take. }
  rewrite length_take, Hlen in Hout. change (length out = 1) in Hout.
  destruct out as [|d [|]]; try done.
  simpl. rewrite !app_nil_r. by inversion Hok.
Qed.

End sampled_facts.

Lemma sampled_impl {model} (ok ok' : nat → list Np.float → Prop)
    (np_exp : Np.float → Np.float) (temperature : Np.float)
    (predict : model → tensor Z → tensor Np.float) (v : nat) (m : model) :
  (∀ d, ok v d → ok' v d) →
  sampled ok np_exp temperature predict v m →
  sampled ok' np_exp temperature predict v m.
Proof.
  intros Himpl Hs rows Hrows. destruct (Hs rows Hrows) as (out & ? & ? & Hok).
  exists out. split; [done|]. split; [done|].
  eapply Forall_impl; [done|]. intros d. apply Himpl.
Qed.

(** Over exact arithmetic a well-formed model is sampled from
    distributions without zeros at every temperature above 0. *)
Lemma well_formed_sampled {model}
    (predict : model → tensor Z → tensor Np.float) (v : nat) (m : model)
    (t : R) :
  well_formed predict v m → (0 < t)%R →
  sampled likely Np.exp (Np.Fin t) predict v m.
Proof.
  intros Hmodel Ht rows Hrows.
  destruct (Hmodel rows Hrows) as (out & ? & ? & Hlikely).
  exists out. split; [done|]. split; [done|].
  eapply Forall_impl; [done|]. intros d. by apply likely_temp_scale.
Qed.

Section safe_facts.

Lemma bind_safe {A B} (m : M A) (f : A → M B) (w : world) :
  (∀ e w', m w ≠ Raised e w') →
  (∀ a w1, m w = Done a w1 → ∀ e w', f a w1 ≠ Raised e w') →
  ∀ e w', (m ≫= f) w ≠ Raised e w'.
Proof.
  intros Hm Hf e w'. unfold mbind, M_bind.
  destruct (m w) as [a w1|e1 w1|w1] eqn:Hrun; [by apply Hf| |done].
  by specialize (Hm e1 w1).
Qed.

Context (np_exp : Np.float → Np.float) (temperature : Np.float).
Context (upper : str → str) (model : Type).
Context (predict : model → tensor Z → tensor Np.float).
Context (VOCAB_SIZE : nat) (i2c : gmap nat char).
Context (m : model).
Context (Hsampled : sampled Np.distribution np_exp temperature predict
                      VOCAB_SIZE m).
Context (Hi2c : ∀ ix, ix < VOCAB_SIZE → is_Some (i2c !! ix)).

Lemma np_random_choice_safe (p : list Np.float) (w : world) :
  Np.distribution VOCAB_SIZE p →
  ∀ e w', np_random_choice VOCAB_SIZE p w ≠ Raised e w'.
Proof.
  intros Hp e w'. rewrite np_random_choice_distribution by done.
  destruct (rng w); [done|]. by case_decide.
Qed.

Lemma first_index_safe (turns : nat) (p : list Np.float) (w : world) :
  Np.distribution VOCAB_SIZE p →
  ∀ e w', first_index np_random_choice VOCAB_SIZE turns p w ≠ Raised e w'.
Proof.
  intros Hp. revert w. induction turns as [|turns IH]; intros w; [done|].
  simpl. apply bind_safe; [by apply np_random_choice_safe|].
  intros ix w1 _. case_decide; [apply IH|done].
Qed.

Lemma setitem_shaped (X : tensor Z) (i ix : nat) (x : Z) :
  shaped VOCAB_SIZE X → i < MAX_WORD_LEN → ix < VOCAB_SIZE →
  ∃ X', setitem X 0 i ix x = inr X' ∧ shaped VOCAB_SIZE X'.
Proof.
  intros HX Hi Hix. pose proof HX as (rows & -> & Hlen & Hall).
  destruct (rows !! i) as [r|] eqn:Hr; [|apply lookup_ge_None in Hr; lia].
  assert (length r = VOCAB_SIZE) by (by eapply Forall_lookup_1 in Hall).
  assert (Hset : setitem [rows] 0 i ix x
                 = inr (<[0 := <[i := <[ix := x]> r]> rows]> [rows])).
  { apply setitem_inr; [done|done|lia]. }
  eexists. split; [exact Hset|]. by eapply shaped_setitem.
Qed.

Lemma next_index_safe (min_word_length : nat) (X : tensor Z) (i : nat)
    (w : world) :
  shaped VOCAB_SIZE X → 1 ≤ i ≤ MAX_WORD_LEN →
  ∀ e w', next_index np_exp np_random_choice model predict VOCAB_SIZE m
            temperature min_word_length X i w ≠ Raised e w'.
Proof using Hsampled.
  intros HX Hi. unfold next_index.
  destruct (sampled_row _ _ _ _ _ _ _ Hsampled X i HX Hi) as (d & -> & Hd).
  rewrite bind_lift_inr.
  apply bind_safe; [by apply np_random_choice_safe|].
  intros ix w1 _. rewrite bind_turns_left. by apply resample_safe.
Qed.

Lemma sample_rest_safe (min_word_length : nat) (ixs : list nat)
    (X : tensor Z) (generated_word : list str) (w : world) :
  shaped VOCAB_SIZE X → Forall (λ i, 1 ≤ i < MAX_WORD_LEN) ixs →
  ∀ e w', sample_rest np_exp np_random_choice model predict VOCAB_SIZE i2c m
            temperature min_word_length ixs X generated_word w ≠ Raised e w'.
Proof using Hsampled Hi2c.
  revert X generated_word w.
  induction ixs as [|i ixs IH]; intros X gw w HX Hixs; [done|].
  inversion Hixs as [|? ? Hi Hrest]; subst. simpl.
  apply bind_safe; [apply next_index_safe; [done|lia]|].
  intros ix w1 Hix.
  apply (next_index_spec _ _ _ _ _ np_random_choice_sampler) in Hix as (Hix & _).
  destruct (setitem_shaped X i ix 1%Z) as (X' & -> & HX'); [done|lia|done|].
  rewrite bind_lift_inr. case_decide; [done|].
  destruct (Hi2c ix Hix) as [c Hc]. unfold dict_get. rewrite Hc.
  rewrite bind_lift_inr. by apply IH.
Qed.

Lemma generate_word_safe (min_word_length : nat) (w : world) :
  ∀ e w', generate_word np_exp np_random_choice upper model predict VOCAB_SIZE
            i2c m temperature min_word_length w ≠ Raised e w'.
Proof using Hsampled Hi2c.
  unfold generate_word. rewrite bind_turns_left.
  apply bind_safe.
  { apply first_index_safe.
    apply (sampled_first _ _ _ _ _ _ _ Hsampled), shaped_zeros. }
  intros ix w1 Hix.
  apply (first_index_spec _ _ np_random_choice_sampler) in Hix as (_ & Hix & _).
  destruct (setitem_shaped (zeros 1 MAX_WORD_LEN VOCAB_SIZE) 0 ix 1%Z)
    as (X' & -> & HX'); [apply shaped_zeros|unfold MAX_WORD_LEN; lia|done|].
  rewrite bind_lift_inr.
  destruct (Hi2c ix Hix) as [c Hc]. unfold dict_get. rewrite Hc.
  rewrite bind_lift_inr.
  apply bind_safe; [|done].
  apply sample_rest_safe; [done|].
  apply Forall_forall. intros i Hi%elem_of_seq. unfold MAX_WORD_LEN in *. lia.
Qed.

Lemma print_words_safe (n : nat) (w : world) :
  ∀ e w', print_words np_exp np_random_choice upper model predict VOCAB_SIZE
            i2c m temperature n w ≠ Raised e w'.
Proof using Hsampled Hi2c.
  revert w. induction n as [|n IH]; intros w; [done|]. simpl.
  apply bind_safe; [apply generate_word_safe|].
  intros word w1 _. apply bind_safe; [done|]. intros _ w2 _. apply IH.
Qed.

End safe_facts.

(** The words that [print_words n] has printed when it returns. *)
Lemma print_words_count (np_exp : Np.float → Np.float) (upper : str → str)
    (model : Type) (predict : model → tensor Z → tensor Np.float)
    (VOCAB_SIZE : nat) (i2c : gmap nat char) (m : model)
    (temperature : Np.float) (n : nat) (w w' : world) :
  print_words np_exp np_random_choice upper model predict VOCAB_SIZE i2c m
    temperature n w = Done () w' →
  ∃ out, stdout w' = stdout w ++ out ∧ length (words_printed out) = n.
Proof.
  revert w. induction n as [|n IH]; intros w H; simpl in H.
  - injection H as <-. exists []. by rewrite app_nil_r.
  - apply bind_Done in H as (word & w1 & Hword & H).
    apply (generate_word_spec _ _ _ _ _ _ _ np_random_choice_sampler) in Hword
      as (_ & _ & k & _ & _ & _ & _ & Hout & _).
    apply bind_Done in H as (u & w2 & Hprint & H).
    unfold print in Hprint. injection Hprint as _ <-.
    apply IH in H as (out & Hout' & Hlen). simpl in Hout'.
    exists (replicate k PrintStuck ++ [PrintWord word] ++ out). split.
    + rewrite Hout', Hout, <- !app_assoc. done.
    + unfold words_printed in *. rewrite !omap_app, !length_app, Hlen.
      assert (Hstuck : omap (λ o, match o with PrintWord word => Some word
                                  | _ => None end) (replicate k PrintStuck)
                       = []).
      { clear. induction k as [|k IHk]; [done|]. simpl. exact IHk. }
      rewrite Hstuck. done.
Qed.

Section load_facts.

Context (upper : str → str) (model : Type).
Context (predict : model → tensor Z → tensor Np.float).
Context (train_epoch : model → tensor Z → tensor Z → nat → model).
Context (Sequential : nat → model) (load_model : str → except model).
Context (text_to_words : str → list str).
Context (args : arguments) (path : str) (m : model) (t : R).
Context (Hpath : modelpath args = Some path).
Context (Hload : load_model path = inr m).
Context (Hmodel : well_formed predict
                    (length (chars (text_to_words (wordlist args)))) m).
Context (Htemperature : temperature args = Np.Fin t) (Ht : (0 < t)%R).

(** A run that loads a well-formed model can be followed on the tape. *)
Lemma main_load_tape (w : world) :
  main Np.exp np_random_choice upper model predict train_epoch Sequential
    load_model text_to_words args w
  = main Np.exp tape_choice upper model predict train_epoch Sequential
      load_model text_to_words args w.
Proof using Hpath Hload Hmodel Htemperature Ht.
  rewrite !(main_load _ _ _ _ _ _ _ _ _ args path w Hpath).
  apply bind_ext; [done|]. intros _ w1 _.
  apply bind_ext; [done|]. intros _ w2 _.
  rewrite Hload, !bind_lift_inr, Htemperature.
  by apply print_words_tape.
Qed.

End load_facts.

(** A run with a load path raises nothing when the model loads and the
    sampler is given distributions. *)
Lemma main_load_safe (np_exp : Np.float → Np.float) (upper : str → str)
    (model : Type) (predict : model → tensor Z → tensor Np.float)
    (train_epoch : model → tensor Z → tensor Z → nat → model)
    (Sequential : nat → model) (load_model : str → except model)
    (text_to_words : str → list str)
    (args : arguments) (path : str) (m : model) (w : world) :
  modelpath args = Some path → load_model path = inr m →
  sampled Np.distribution np_exp (temperature args) predict
    (length (chars (text_to_words (wordlist args)))) m →
  ∀ e w', main np_exp np_random_choice upper model predict train_epoch
            Sequential load_model text_to_words args w ≠ Raised e w'.
Proof.
  intros Hpath Hload Hsampled.
  rewrite (main_load _ _ _ _ _ _ _ _ _ args path w Hpath).
  apply bind_safe; [by destruct (verbose args)|]. intros _ w1 _.
  apply bind_safe; [done|]. intros _ w2 _.
  rewrite Hload, bind_lift_inr.
  apply print_words_safe; [done|].
  intros ix Hix. rewrite ix_to_char_lookup. by apply lookup_lt_is_Some.
Qed.

(** C2, as amended.  A load path given together with a save path is not
    an error, and the save path changes nothing: the run is the run
    without the save path, and its only Keras call, however it ends, is
    the loading, so it neither trains nor saves.  With a model that loads
    the run raises nothing as long as the sampler is given distributions,
    and if it returns it has printed the requested number of words. *)
Theorem load_with_save_runs (np_exp : Np.float → Np.float)
    (upper : str → str) (model : Type)
    (predict : model → tensor Z → tensor Np.float)
    (train_epoch : model → tensor Z → tensor Z → nat → model)
    (Sequential : nat → model) (load_model : str → except model)
    (text_to_words : str → list str)
    (args : arguments) (path save : str) (w : world) :
  modelpath args = Some path →
  savepath args = Some save →
  main np_exp np_random_choice upper model predict train_epoch Sequential
    load_model text_to_words args w
  = main np_exp np_random_choice upper model predict train_epoch Sequential
      load_model text_to_words
      (Arguments (wordlist args) None (modelpath args) (temperature args)
         (nwords args) (epochs args) (verbose args)) w ∧
  keras (final (main np_exp np_random_choice upper model predict train_epoch
                  Sequential load_model text_to_words args w))
  = keras w ++ [Load path] ∧
  (∀ m, load_model path = inr m →
     sampled Np.distribution np_exp (temperature args) predict
       (length (chars (text_to_words (wordlist args)))) m →
     ∀ e w', main np_exp np_random_choice upper model predict train_epoch
               Sequential load_model text_to_words args w ≠ Raised e w') ∧
  (∀ w', main np_exp np_random_choice upper model predict train_epoch
           Sequential load_model text_to_words args w = Done () w' →
         ∃ out, stdout w' = stdout w ++ out
                ∧ length (words_printed out) = Z.to_nat (nwords args)).
Proof.
  intros Hpath _. split_and!.
  - rewrite (main_load _ _ _ _ _ _ _ _ _ args path w Hpath).
    by rewrite (main_load _ _ _ _ _ _ _ _ _ (Arguments _ _ _ _ _ _ _) path w
                  Hpath).
  - rewrite (main_load _ _ _ _ _ _ _ _ _ args path w Hpath).
    pose proof (quiet_print_words np_exp np_random_choice upper model predict
                  (length (chars (text_to_words (wordlist args))))
                  (ix_to_char (chars (text_to_words (wordlist args))))
                  np_random_choice_sampler) as Hquiet.
    unfold mbind, M_bind.
    destruct (verbose args); simpl;
      (destruct (load_model path) as [err|m]; simpl;
       [by rewrite app_nil_r || done|]);
      by rewrite Hquiet.
  - intros m Hload Hsampled. by eapply main_load_safe.
  - intros w' H.
    rewrite (main_load _ _ _ _ _ _ _ _ _ args path w Hpath) in H.
    apply bind_Done in H as (u & w1 & Hpre & H).
    apply bind_Done in H as (u' & w2 & Hrec & H).
    unfold record in Hrec. injection Hrec as _ <-.
    apply bind_Done in H as (m & w3 & [_ ->]%lift_Done & H).
    apply print_words_count in H as (out & Hout & Hlen). simpl in Hout.
    destruct (verbose args).
    + unfold print in Hpre. injection Hpre as _ <-. simpl in Hout.
      eexists (_ :: out). split; [by rewrite Hout, <- app_assoc|done].
    + injection Hpre as _ <-. by exists out.
Qed.

Lemma load_with_save_runs_witness :
  main Np.exp np_random_choice latin1_upper unit uniform_predict
    uniform_train (λ _, ()) uniform_load (λ _, cat_car_cap)
    load_and_save (tape [2; 1; 5; 0; 3; 0; 2; 1; 4; 1; 0])
  = main Np.exp np_random_choice latin1_upper unit uniform_predict
      uniform_train (λ _, ()) uniform_load (λ _, cat_car_cap)
      (Arguments (wordlist load_and_save) None (modelpath load_and_save)
         (temperature load_and_save) (nwords load_and_save)
         (epochs load_and_save) (verbose load_and_save))
      (tape [2; 1; 5; 0; 3; 0; 2; 1; 4; 1; 0]) ∧
  keras (final (main Np.exp np_random_choice latin1_upper unit uniform_predict
                  uniform_train (λ _, ()) uniform_load (λ _, cat_car_cap)
                  load_and_save (tape [2; 1; 5; 0; 3; 0; 2; 1; 4; 1; 0])))
  = keras (tape [2; 1; 5; 0; 3; 0; 2; 1; 4; 1; 0]) ++ [Load [109%N]] ∧
  (∀ e w', main Np.exp np_random_choice latin1_upper unit uniform_predict
             uniform_train (λ _, ()) uniform_load (λ _, cat_car_cap)
             load_and_save (tape [2; 1; 5; 0; 3; 0; 2; 1; 4; 1; 0])
           ≠ Raised e w') ∧
  (∀ w', main Np.exp np_random_choice latin1_upper unit uniform_predict
           uniform_train (λ _, ()) uniform_load (λ _, cat_car_cap)
           load_and_save (tape [2; 1; 5; 0; 3; 0; 2; 1; 4; 1; 0]) = Done () w' →
         ∃ out, stdout w' = stdout (tape [2; 1; 5; 0; 3; 0; 2; 1; 4; 1; 0]) ++ out
                ∧ length (words_printed out) = Z.to_nat (nwords load_and_save)).
Proof.
  destruct (load_with_save_runs Np.exp latin1_upper unit uniform_predict
              uniform_train (λ _, ()) uniform_load (λ _, cat_car_cap)
              load_and_save [109%N] [115%N]
              (tape [2; 1; 5; 0; 3; 0; 2; 1; 4; 1; 0]))
    as (Hsame & Hlog & Hsafe & Hwords).
  - reflexivity.
  - reflexivity.
  - split; [exact Hsame|]. split; [exact Hlog|]. split; [|exact Hwords].
    apply (Hsafe ()); [reflexivity|].
    apply (sampled_impl likely); [by intros d [? _]|].
    apply well_formed_sampled; [|lra].
    apply well_formed_uniform. vm_compute. lia.
Defined.

(** C2, as stated, fails: with [--modelpath m --savepath s] the script
    raises no configuration error; it loads the model, makes no other
    Keras call, and prints its two words. *)
Lemma load_with_save_counterexample :
  modelpath load_and_save = Some [109%N] ∧
  savepath load_and_save = Some [115%N] ∧
  main Np.exp np_random_choice latin1_upper unit uniform_predict
    uniform_train (λ _, ()) uniform_load (λ _, cat_car_cap)
    load_and_save (tape [2; 1; 5; 0; 3; 0; 2; 1; 4; 1; 0])
  = Done () (World [] [PrintWord [67; 97; 116; 112]%N;
                       PrintWord [67; 97; 114; 97]%N]
               [Load [109%N]]).
Proof.
  split; [done|]. split; [done|].
  rewrite (main_load_tape latin1_upper unit uniform_predict uniform_train
             (λ _, ()) uniform_load (λ _, cat_car_cap) load_and_save
             [109%N] () 1).
  - vm_compute. reflexivity.
  - reflexivity.
  - reflexivity.
  - apply well_formed_uniform. vm_compute. lia.
  - reflexivity.
  - lra.
Qed.

(** * Further properties *)

(** ** The temperature sampler: order, composition, sharpening *)

Section temp_scale_more.
Local Open Scope R_scope.

Lemma sharpen_zero (t : R) : sharpen t 0 = 0.
Proof. unfold sharpen. rewrite decide_False; [done|lra]. Qed.

Lemma sharpen_exp (t x : R) : 0 < x → sharpen t x = Rtrigo_def.exp (ln x / t).
Proof. intros Hx. unfold sharpen. by rewrite decide_True. Qed.

Lemma sharpen_lt (t x y : R) :
  0 < t → 0 <= x → x < y → sharpen t x < sharpen t y.
Proof.
  intros Ht Hx Hxy. destruct (decide (0 < x)) as [Hpos|Hzero].
  - rewrite !sharpen_exp by lra. apply exp_increasing.
    assert (ln x < ln y) by (apply ln_increasing; lra).
    apply Rmult_lt_compat_r; [by apply Rinv_0_lt_compat|done].
  - replace x with 0 by lra. rewrite sharpen_zero. apply sharpen_pos. lra.
Qed.

Lemma sharpen_le_iff (t x y : R) :
  0 < t → 0 <= x → 0 <= y → x <= y ↔ sharpen t x <= sharpen t y.
Proof.
  intros Ht Hx Hy. split.
  - intros [Hlt| ->]; [left; by apply sharpen_lt|lra].
  - intros Hle. destruct (Rle_lt_dec x y) as [|Hgt]; [done|].
    pose proof (sharpen_lt t y x Ht Hy Hgt). lra.
Qed.

Lemma sharpen_zero_iff (t x : R) : 0 <= x → x = 0 ↔ sharpen t x = 0.
Proof.
  intros Hx. split; [intros ->; apply sharpen_zero|].
  intros Hs. destruct (decide (0 < x)) as [Hpos|]; [|lra].
  pose proof (sharpen_pos t x Hpos). lra.
Qed.

(** [x ** (1/t)] is [x] times [x ** (1/t - 1)]. *)
Lemma sharpen_split (t x : R) :
  0 < x → sharpen t x = x * Rtrigo_def.exp (ln x * (1 / t - 1)).
Proof.
  intros Hx. rewrite sharpen_exp by done.
  rewrite <- (exp_ln x) at 2 by done. rewrite <- exp_plus. f_equal.
  unfold Rdiv. lra.
Qed.

Lemma Rsum_le (f g : R → R) (p : list R) :
  Forall (λ x, f x <= g x) p → Rsum (map f p) <= Rsum (map g p).
Proof. induction 1; simpl; lra. Qed.

Lemma Rsum_mult (c : R) (xs : list R) :
  Rsum (map (λ x, x * c) xs) = Rsum xs * c.
Proof. induction xs as [|x xs IH]; simpl; [|rewrite IH]; lra. Qed.

Lemma entry_le_one (p : list R) (x : R) :
  probability_vector p → x ∈ p → x <= 1.
Proof.
  intros [Hnn <-] Hx. induction Hnn as [|y p Hy Hp IH]; [by apply elem_of_nil in Hx|].
  simpl. pose proof (Rsum_nonneg p Hp).
  apply elem_of_cons in Hx as [->|Hx]; [lra|]. specialize (IH Hx). lra.
Qed.

End temp_scale_more.

(** X1.  For a probability vector and a temperature [t > 0], [temp_scale]
    keeps the order of the entries and their zeros: entry [i] is at most
    entry [j] after scaling exactly when it was before, and it is zero
    after scaling exactly when it was before. *)
Theorem temp_scale_keeps_order (p : list R) (t : R) :
  probability_vector p → (0 < t)%R →
  ∃ q, temp_scale Np.exp (fin p) (Np.Fin t) = fin q ∧ length q = length p ∧
    ∀ i j x y x' y',
      p !! i = Some x → p !! j = Some y → q !! i = Some x' → q !! j = Some y' →
      ((x <= y)%R ↔ (x' <= y')%R) ∧ (x = 0%R ↔ x' = 0%R).
Proof.
  intros Hp Ht. eexists. split; [by apply temp_scale_fin|].
  split; [by rewrite !length_map|].
  pose proof (sharpened_mass t p Hp) as Hmass.
  intros i j x y x' y' Hx Hy Hx' Hy'.
  rewrite !list_lookup_fmap, Hx in Hx'. rewrite !list_lookup_fmap, Hy in Hy'.
  simpl in Hx', Hy'. injection Hx' as <-. injection Hy' as <-.
  destruct Hp as [Hnn _].
  assert (0 <= x)%R by (by eapply Forall_lookup_1 in Hx).
  assert (0 <= y)%R by (by eapply Forall_lookup_1 in Hy).
  assert (Hinv : (0 < / Rsum (map (sharpen t) p))%R) by (by apply Rinv_0_lt_compat).
  split.
  - rewrite (sharpen_le_iff t x y) by done. unfold Rdiv. split.
    + intros Hle. by apply Rmult_le_compat_r; [lra|].
    + intros Hle. by apply Rmult_le_reg_r in Hle.
  - rewrite (sharpen_zero_iff t x) by done. unfold Rdiv. split.
    + intros ->. lra.
    + intros Hzero. apply Rmult_integral in Hzero as [?|?]; [done|lra].
Qed.

Lemma temp_scale_keeps_order_witness :
  ∃ q, temp_scale Np.exp (fin [(1/4)%R; (3/4)%R; 0%R]) (Np.Fin (1/2)) = fin q
    ∧ length q = length [(1/4)%R; (3/4)%R; 0%R] ∧
    ∀ i j x y x' y',
      [(1/4)%R; (3/4)%R; 0%R] !! i = Some x →
      [(1/4)%R; (3/4)%R; 0%R] !! j = Some y →
      q !! i = Some x' → q !! j = Some y' →
      ((x <= y)%R ↔ (x' <= y')%R) ∧ (x = 0%R ↔ x' = 0%R).
Proof.
  apply (temp_scale_keeps_order [(1/4)%R; (3/4)%R; 0%R] (1/2)).
  - split; [repeat constructor; lra | simpl; lra].
  - lra.
Defined.

(** X2.  Scaling twice is scaling once with the product of the
    temperatures: [temp_scale(temp_scale(p, s), t) = temp_scale(p, s * t)]
    for a probability vector [p] and [s, t > 0], over exact arithmetic. *)
Theorem temp_scale_twice (p : list R) (s t : R) :
  probability_vector p → (0 < s)%R → (0 < t)%R →
  temp_scale Np.exp (temp_scale Np.exp (fin p) (Np.Fin s)) (Np.Fin t)
  = temp_scale Np.exp (fin p) (Np.Fin (s * t)).
Proof.
  intros Hp Hs Ht.
  assert (Hst : (0 < s * t)%R) by (by apply Rmult_lt_0_compat).
  rewrite (temp_scale_fin s p) by done.
  pose proof (temp_scale_vector s p Hs Hp) as Hq.
  rewrite temp_scale_fin by done. rewrite (temp_scale_fin (s * t) p) by done.
  pose proof (sharpened_mass s p Hp) as HS.
  pose proof (sharpened_mass (s * t) p Hp) as HS''.
  set (S := Rsum (map (sharpen s) p)) in *.
  set (S'' := Rsum (map (sharpen (s * t)) p)) in *.
  set (c := Rtrigo_def.exp (- ln S / t)).
  assert (Hc : (0 < c)%R) by apply exp_pos.
  assert (Hentries :
    map (sharpen t) (map (λ x, x / S) (map (sharpen s) p))%R
    = map (λ y, y * c)%R (map (sharpen (s * t)) p)).
  { rewrite !map_map. apply map_ext_in. intros x Hx%list_elem_of_In.
    destruct Hp as [Hnn _]. eapply Forall_forall in Hnn; [|done].
    destruct (decide (0 < x)%R) as [Hpos|Hzero].
    - pose proof (sharpen_pos s x Hpos) as Hsx.
      assert (0 < sharpen s x / S)%R by (by apply Rdiv_lt_0_compat).
      assert (0 < / S)%R by (by apply Rinv_0_lt_compat).
      rewrite (sharpen_exp t) by done. unfold Rdiv at 2.
      rewrite ln_mult, ln_Rinv by done.
      rewrite (sharpen_exp s x), ln_exp by done.
      rewrite (sharpen_exp (s * t)) by done. unfold c.
      rewrite <- exp_plus. f_equal. field. lra.
    - replace x with 0%R by lra. rewrite !sharpen_zero.
      replace (0 / S)%R with 0%R by (unfold Rdiv; lra).
      rewrite sharpen_zero. lra. }
  rewrite Hentries, Rsum_mult. fold S''. unfold fin. f_equal.
  rewrite map_map. apply map_ext. intros y. field. lra.
Qed.

Lemma temp_scale_twice_witness :
  temp_scale Np.exp (temp_scale Np.exp (fin [(1/4)%R; (3/4)%R; 0%R]) (Np.Fin 2))
    (Np.Fin (1/4))
  = temp_scale Np.exp (fin [(1/4)%R; (3/4)%R; 0%R]) (Np.Fin (2 * (1/4))).
Proof.
  apply temp_scale_twice.
  - split; [repeat constructor; lra | simpl; lra].
  - lra.
  - lra.
Defined.

Lemma exp_le (x y : R) : (x <= y)%R → (Rtrigo_def.exp x <= Rtrigo_def.exp y)%R.
Proof. intros [Hlt| ->]; [left; by apply exp_increasing|lra]. Qed.

Lemma ln_le_pos (x y : R) : (0 < x)%R → (x <= y)%R → (ln x <= ln y)%R.
Proof. intros Hx [Hlt| ->]; [left; by apply ln_increasing|lra]. Qed.

Lemma Rsum_nonpos (xs : list R) :
  Forall (λ x, (x <= 0)%R) xs → (Rsum xs <= 0)%R.
Proof. induction 1; simpl; lra. Qed.

Lemma mode_pos (p : list R) (m : R) :
  probability_vector p → Forall (λ x, (x <= m)%R) p → (0 < m)%R.
Proof.
  intros [_ Hsum] Hmax. destruct (Rlt_le_dec 0 m) as [|Hle]; [done|].
  assert (Rsum p <= 0)%R; [|lra].
  apply Rsum_nonpos. eapply Forall_impl; [done|]. simpl. intros. lra.
Qed.

(** X3.  Over exact arithmetic, what the comment of [temp_scale] says of
    low and high temperatures holds on a most likely entry: a temperature
    of at most 1 does not lower its probability, a temperature of at
    least 1 does not raise it. *)
Theorem temp_scale_sharpens_mode (p : list R) (t : R) (i : nat) (m : R) :
  probability_vector p → (0 < t)%R →
  p !! i = Some m → Forall (λ x, (x <= m)%R) p →
  ∃ q m', temp_scale Np.exp (fin p) (Np.Fin t) = fin q ∧ q !! i = Some m' ∧
    ((t <= 1)%R → (m <= m')%R) ∧ ((1 <= t)%R → (m' <= m)%R).
Proof.
  intros Hp Ht Hi Hmax.
  pose proof (mode_pos p m Hp Hmax) as Hm.
  pose proof (sharpened_mass t p Hp) as HS.
  eexists _, _. split; [by apply temp_scale_fin|].
  split; [by rewrite !list_lookup_fmap, Hi|].
  set (S := Rsum (map (sharpen t) p)) in *.
  set (k := (1 / t - 1)%R).
  set (E := Rtrigo_def.exp (ln m * k)).
  assert (HE : (0 < E)%R) by apply exp_pos.
  assert (Hsm : sharpen t m = (m * E)%R) by (by apply sharpen_split).
  assert (HsumE : Rsum (map (λ x, x * E)%R p) = E).
  { rewrite Rsum_mult. destruct Hp as [_ ->]. lra. }
  assert (Hinv : (0 < / S)%R) by (by apply Rinv_0_lt_compat).
  destruct Hp as [Hnn _]. rewrite Hsm. split.
  - intros Hle.
    assert (Hk : (0 <= k)%R).
    { pose proof (Rinv_le_contravar t 1 Ht Hle) as H1. rewrite Rinv_1 in H1.
      unfold k, Rdiv. lra. }
    assert (HSE : (S <= E)%R).
    { rewrite <- HsumE. apply Rsum_le.
      apply Forall_forall. intros x Hx.
      eapply Forall_forall in Hnn; [|done]. eapply Forall_forall in Hmax; [|done].
      simpl in *. destruct (decide (0 < x)%R) as [Hpos|Hzero].
      - rewrite sharpen_split by done. apply Rmult_le_compat_l; [lra|].
        apply exp_le. apply Rmult_le_compat_r; [done|]. by apply ln_le_pos.
      - replace x with 0%R by lra. rewrite sharpen_zero. lra. }
    apply (Rmult_le_reg_r S); [done|]. unfold Rdiv.
    rewrite Rmult_assoc, Rinv_l by lra. nra.
  - intros Hge.
    assert (Hk : (k <= 0)%R).
    { pose proof (Rinv_le_contravar 1 t Rlt_0_1 Hge) as H1. rewrite Rinv_1 in H1.
      unfold k, Rdiv. lra. }
    assert (HSE : (E <= S)%R).
    { rewrite <- HsumE. apply Rsum_le.
      apply Forall_forall. intros x Hx.
      eapply Forall_forall in Hnn; [|done]. eapply Forall_forall in Hmax; [|done].
      simpl in *. destruct (decide (0 < x)%R) as [Hpos|Hzero].
      - rewrite sharpen_split by done. apply Rmult_le_compat_l; [lra|].
        apply exp_le. rewrite !(Rmult_comm _ k).
        apply Rmult_le_compat_neg_l; [done|]. by apply ln_le_pos.
      - replace x with 0%R by lra. rewrite sharpen_zero. lra. }
    apply (Rmult_le_reg_r S); [done|]. unfold Rdiv.
    rewrite Rmult_assoc, Rinv_l by lra. nra.
Qed.

Lemma temp_scale_sharpens_mode_witness :
  ∃ q m', temp_scale Np.exp (fin [(1/4)%R; (3/4)%R; 0%R]) (Np.Fin (1/2)) = fin q
    ∧ q !! 1 = Some m' ∧
    ((1/2 <= 1)%R → (3/4 <= m')%R) ∧ ((1 <= 1/2)%R → (m' <= 3/4)%R).
Proof.
  apply (temp_scale_sharpens_mode [(1/4)%R; (3/4)%R; 0%R] (1/2) 1 (3/4)).
  - split; [repeat constructor; lra | simpl; lra].
  - lra.
  - reflexivity.
  - repeat constructor; lra.
Defined.

(** ** Temperature 0 *)

(** The first line of [temp_scale] at temperature 0, on an entry of a
    probability vector: [log x / 0] is [-inf] below 1 and [nan] at 1. *)
Lemma scale_entry_zero (x : R) :
  (0 <= x <= 1)%R →
  Np.exp (Np.div (Np.log (Np.Fin x)) (Np.Fin 0))
  = if decide (x = 1)%R then Np.NaN else Np.Fin 0.
Proof.
  intros [H0 H1]. simpl. destruct (decide (0 < x)%R) as [Hpos|Hzero]; simpl.
  - rewrite decide_True by done. destruct (decide (x = 1)%R) as [Hx|Hx].
    + subst x. rewrite ln_1. rewrite decide_False by lra.
      by rewrite decide_True by done.
    + assert (ln x < 0)%R.
      { rewrite <- ln_1. apply ln_increasing; lra. }
      rewrite decide_False by lra. by rewrite decide_False by lra.
  - rewrite decide_True by lra. simpl. unfold Np.inf_over.
    rewrite decide_False by lra. rewrite decide_True by done.
    by rewrite decide_False by lra.
Qed.

(** [temp_scale] at temperature 0 on a probability vector. *)
Lemma temp_scale_nan (p : list R) :
  probability_vector p →
  temp_scale Np.exp (fin p) (Np.Fin 0) = replicate (length p) Np.NaN.
Proof.
  intros Hp. rewrite temp_scale_all_nan.
  - unfold fin. by rewrite length_map.
  - unfold fin. apply Forall_fmap, Forall_forall.
    intros x Hx. unfold compose. rewrite scale_entry_zero.
    + case_decide; auto.
    + split; [|by eapply entry_le_one].
      destruct Hp as [Hnn _]. by eapply Forall_forall in Hnn.
Qed.

(** X4.  At temperature 0 [temp_scale] does not reach the argmax that its
    comment announces: on a probability vector every entry of the result
    is [nan], so that the result is no distribution for
    [np.random.choice]. *)
Theorem temp_scale_zero_temperature (p : list R) :
  probability_vector p →
  temp_scale Np.exp (fin p) (Np.Fin 0) = replicate (length p) Np.NaN ∧
  ¬ Np.distribution (length p) (temp_scale Np.exp (fin p) (Np.Fin 0)).
Proof.
  intros Hp. rewrite temp_scale_nan by done.
  split; [done|apply nan_not_distribution].
Qed.

Lemma temp_scale_zero_temperature_witness :
  temp_scale Np.exp (fin [(1/4)%R; (3/4)%R; 0%R]) (Np.Fin 0)
  = replicate (length [(1/4)%R; (3/4)%R; 0%R]) Np.NaN ∧
  ¬ Np.distribution (length [(1/4)%R; (3/4)%R; 0%R])
      (temp_scale Np.exp (fin [(1/4)%R; (3/4)%R; 0%R]) (Np.Fin 0)).
Proof.
  apply temp_scale_zero_temperature.
  split; [repeat constructor; lra | simpl; lra].
Defined.

(** Line 120 at temperature 0. *)
Lemma generate_word_nan (upper : str → str) (model : Type)
    (predict : model → tensor Z → tensor Np.float) (VOCAB_SIZE : nat)
    (i2c : gmap nat char) (m : model) (min_word_length : nat) (w : world) :
  well_formed predict VOCAB_SIZE m →
  generate_word Np.exp np_random_choice upper model predict VOCAB_SIZE i2c m
    (Np.Fin 0) min_word_length w = Raised ValueError w.
Proof.
  intros Hmodel.
  destruct (predicted_first _ _ _ _ Hmodel _ (shaped_zeros VOCAB_SIZE))
    as [Hdist _].
  apply distribution_inv in Hdist as (p & Hrow & Hp & _).
  unfold generate_word. rewrite Hrow.
  rewrite (temp_scale_nan p Hp).
  unfold mbind, M_bind, turns_left. simpl.
  unfold mbind, M_bind, np_random_choice.
  rewrite decide_False by apply nan_not_distribution. done.
Qed.

(** X5.  With a well-formed model, [generate_word] at temperature 0
    raises [ValueError] at the first [np.random.choice] (line 120): no
    outcome is drawn, nothing is printed and no word is returned. *)
Theorem generate_word_zero_temperature (upper : str → str) (model : Type)
    (predict : model → tensor Z → tensor Np.float) (VOCAB_SIZE : nat)
    (i2c : gmap nat char) (m : model) (min_word_length : nat) (w : world) :
  well_formed predict VOCAB_SIZE m →
  generate_word Np.exp np_random_choice upper model predict VOCAB_SIZE i2c m
    (Np.Fin 0) min_word_length w = Raised ValueError w.
Proof. apply generate_word_nan. Qed.

Lemma generate_word_zero_temperature_witness :
  generate_word Np.exp np_random_choice latin1_upper unit uniform_predict 3
    (ix_to_char [10; 97; 98]%N) () (Np.Fin 0) 4 (tape [1; 2; 0])
  = Raised ValueError (tape [1; 2; 0]).
Proof.
  apply generate_word_zero_temperature, well_formed_uniform. lia.
Defined.

(** ** The vocabulary: size and order of the indices *)

Lemma StronglySorted_lookup_lt {A} (R : A → A → Prop) (l : list A)
    (i j : nat) (x y : A) :
  StronglySorted R l → l !! i = Some x → l !! j = Some y → i < j → R x y.
Proof.
  intros Hs. revert i j. induction Hs as [|z l _ IH Hall]; intros i j Hi Hj Hij.
  - done.
  - destruct j as [|j]; [lia|]. destruct i as [|i]; simpl in *.
    + injection Hi as ->. eapply Forall_forall in Hall; [done|].
      by eapply list_elem_of_lookup_2.
    + apply (IH i j); [done..|lia].
Qed.

Lemma chars_increasing (words : list str) (i j : nat) (c d : char) :
  chars words !! i = Some c → chars words !! j = Some d →
  i < j → (c < d)%N.
Proof.
  intros Hi Hj Hij.
  assert (c ≤ d)%N.
  { eapply (StronglySorted_lookup_lt N.le); [apply py_sorted_sorted|..|done];
      done. }
  assert (c ≠ d); [|lia]. intros ->.
  pose proof (NoDup_lookup _ i j d (chars_NoDup words) Hi Hj). lia.
Qed.

(** X6.  The vocabulary has one index per distinct character of the
    words, the indices are exactly those below [VOCAB_SIZE], and they
    follow the order of the code points: the character with the lower
    code point has the lower index. *)
Theorem vocabulary_order (words : list str) :
  length (chars words) = size (list_to_set (concat words) : gset char) ∧
  (∀ i, is_Some (ix_to_char (chars words) !! i) ↔ i < length (chars words)) ∧
  (∀ c d i j,
     char_to_ix (chars words) !! c = Some i →
     char_to_ix (chars words) !! d = Some j →
     ((c < d)%N ↔ i < j)).
Proof.
  split_and!.
  - unfold chars. by rewrite py_sorted_perm.
  - intros i. rewrite ix_to_char_lookup. apply lookup_lt_is_Some.
  - intros c d i j Hc Hd.
    apply char_to_ix_lookup in Hc; [|apply chars_NoDup].
    apply char_to_ix_lookup in Hd; [|apply chars_NoDup].
    split.
    + intros Hlt. destruct (lt_eq_lt_dec i j) as [[?| ->]|Hgt]; [done|..].
      * rewrite Hc in Hd. injection Hd as ->. lia.
      * pose proof (chars_increasing words j i d c Hd Hc Hgt). lia.
    + by apply (chars_increasing words).
Qed.

(** ** The encoder: shape, one-hot rows, truncation *)

Lemma length_onehot (v ix : nat) : length (onehot v ix) = v.
Proof. unfold onehot. by rewrite length_insert, length_replicate. Qed.

Lemma row_of_width (c2i : gmap char nat) (v : nat) (l : str) (n : nat) :
  Forall (λ row, length row = v)
    (fill (row_of c2i v) (replicate v 0%Z) l n MAX_WORD_LEN).
Proof.
  unfold fill. apply Forall_app. split.
  - apply Forall_fmap, Forall_forall. intros c _. apply length_onehot.
  - apply Forall_replicate. by rewrite length_replicate.
Qed.

(** X7.  The tensors have the shape [(N_WORDS, MAX_WORD_LEN, VOCAB_SIZE)],
    and in [X] row [t] of word [i] is exactly the one-hot row of the index
    of the character at position [t] of the word, for [t] below its
    length, and all zero from there on. *)
Theorem encode_one_hot (words : list str) :
  ∃ X Y, encode words = inr (X, Y) ∧
    length X = length words ∧ length Y = length words ∧
    Forall (λ x, length x = MAX_WORD_LEN
                 ∧ Forall (λ row, length row = length (chars words)) x)
      (X ++ Y) ∧
    ∀ i word x t, words !! i = Some word → X !! i = Some x →
      t < MAX_WORD_LEN →
      match word !! t with
      | Some c =>
          ∃ ix, char_to_ix (chars words) !! c = Some ix ∧
            ix < length (chars words) ∧
            x !! t = Some (onehot (length (chars words)) ix)
      | None => x !! t = Some (replicate (length (chars words)) 0%Z)
      end.
Proof.
  eexists _, _. split; [apply encode_closed|].
  split; [by rewrite length_fmap|]. split; [by rewrite length_fmap|]. split.
  - apply Forall_app. split; apply Forall_fmap, Forall_forall; intros word _;
      simpl; (split; [|by apply row_of_width]).
    + unfold rows_X. apply length_fill; lia.
    + unfold rows_Y. apply length_fill; [rewrite length_drop|]; lia.
  - intros i word x t Hword Hx Ht.
    rewrite list_lookup_fmap, Hword in Hx. injection Hx as <-.
    unfold rows_X. rewrite lookup_fill by lia.
    destruct (word !! t) as [c|] eqn:Hc.
    + pose proof (lookup_lt_Some _ _ _ Hc).
      rewrite decide_True by lia.
      destruct (char_to_ix_total words word c) as (ix & Hix & Hlt).
      { by eapply list_elem_of_lookup_2. }
      { by eapply list_elem_of_lookup_2. }
      exists ix. split; [done|]. split; [done|].
      simpl. unfold row_of. by rewrite Hix.
    + apply lookup_ge_None in Hc.
      rewrite decide_False by lia. by rewrite decide_True by lia.
Qed.

(** The rows of a word are those of its first [MAX_WORD_LEN] characters. *)
Lemma rows_X_take (c2i : gmap char nat) (v : nat) (word : str) :
  rows_X c2i v word (length word `min` MAX_WORD_LEN)
  = rows_X c2i v (take MAX_WORD_LEN word)
      (length (take MAX_WORD_LEN word) `min` MAX_WORD_LEN).
Proof.
  unfold rows_X, fill. rewrite length_take.
  rewrite take_take. do 3 f_equal; lia.
Qed.

Lemma rows_Y_take (c2i : gmap char nat) (v : nat) (word : str) :
  rows_Y c2i v word (length word `min` MAX_WORD_LEN)
  = rows_Y c2i v (take MAX_WORD_LEN word)
      (length (take MAX_WORD_LEN word) `min` MAX_WORD_LEN).
Proof.
  unfold rows_Y, fill. rewrite length_take.
  replace (drop 1 (take MAX_WORD_LEN word))
    with (take (MAX_WORD_LEN - 1) (drop 1 word))
    by (rewrite take_drop_commute; by unfold MAX_WORD_LEN).
  rewrite take_take. do 3 f_equal; lia.
Qed.

Lemma fmap_through_take {A B} (f : list A → B) (n : nat)
    (l l' : list (list A)) :
  (∀ x, f x = f (take n x)) → take n <$> l = take n <$> l' →
  f <$> l = f <$> l'.
Proof.
  intros Hf Htake.
  transitivity (f <$> (take n <$> l)).
  - rewrite <- list_fmap_compose. apply list_fmap_ext. intros _ x _. apply Hf.
  - rewrite Htake, <- list_fmap_compose. apply list_fmap_ext.
    intros _ x _. symmetry. apply Hf.
Qed.

(** X8.  The encoder reads at most the first [MAX_WORD_LEN = 12]
    characters of a word: two word lists with the same vocabulary that
    agree on the first 12 characters of every word have the same
    tensors. *)
Theorem encode_truncates (words words' : list str) :
  chars words = chars words' →
  take MAX_WORD_LEN <$> words = take MAX_WORD_LEN <$> words' →
  encode words = encode words'.
Proof.
  intros Hchars Htake. rewrite !encode_closed, Hchars. do 2 f_equal.
  - apply (fmap_through_take _ MAX_WORD_LEN); [|done].
    intros word. apply rows_X_take.
  - apply (fmap_through_take _ MAX_WORD_LEN); [|done].
    intros word. apply rows_Y_take.
Qed.

Lemma encode_truncates_witness :
  encode [[97; 98; 99; 100; 101; 102; 103; 104; 105; 106; 107; 108;
           97; 98; 10]%N]
  = encode [[97; 98; 99; 100; 101; 102; 103; 104; 105; 106; 107; 108;
             10; 108]%N].
Proof.
  apply encode_truncates.
  - vm_compute. reflexivity.
  - reflexivity.
Defined.

(** ** The generator on a tape that needs no resampling *)

Lemma bind_run {A B} (m : M A) (f : A → M B) (w w' : world) (a : A) :
  m w = Done a w' → (m ≫= f) w = f a w'.
Proof. unfold mbind, M_bind. by intros ->. Qed.

(** Where the sampler is given distributions without zeros, it takes
    whatever index the tape holds. *)
Section sampled_tape_facts.

Context (np_exp : Np.float → Np.float) (temperature : Np.float).
Context (upper : str → str) (model : Type).
Context (predict : model → tensor Z → tensor Np.float).
Context (VOCAB_SIZE : nat) (i2c : gmap nat char) (m : model).
Context (Hsampled : sampled likely np_exp temperature predict VOCAB_SIZE m).

Lemma next_index_sampled_tape (min_word_length : nat) (X : tensor Z)
    (i : nat) (w : world) :
  shaped VOCAB_SIZE X → 1 ≤ i ≤ MAX_WORD_LEN →
  next_index np_exp np_random_choice model predict VOCAB_SIZE m temperature
    min_word_length X i w
  = next_index np_exp tape_choice model predict VOCAB_SIZE m temperature
      min_word_length X i w.
Proof using Hsampled.
  intros HX Hi. unfold next_index.
  destruct (sampled_row _ _ _ _ _ _ _ Hsampled X i HX Hi) as (d & -> & Hd).
  rewrite !bind_lift_inr.
  apply bind_ext; [apply np_random_choice_tape; apply Hd|].
  intros ix w' _. rewrite !bind_turns_left. by apply resample_tape.
Qed.

Lemma sample_rest_sampled_tape (min_word_length : nat) (ixs : list nat)
    (X : tensor Z) (generated_word : list str) (w : world) :
  shaped VOCAB_SIZE X → Forall (λ i, 1 ≤ i ≤ MAX_WORD_LEN) ixs →
  sample_rest np_exp np_random_choice model predict VOCAB_SIZE i2c m
    temperature min_word_length ixs X generated_word w
  = sample_rest np_exp tape_choice model predict VOCAB_SIZE i2c m temperature
      min_word_length ixs X generated_word w.
Proof using Hsampled.
  revert X generated_word w.
  induction ixs as [|i ixs IH]; intros X gw w HX Hixs; [done|].
  inversion Hixs as [|? ? Hi Hrest]; subst. simpl.
  apply bind_ext; [by apply next_index_sampled_tape|].
  intros ix w' _. apply bind_ext; [done|].
  intros X' w'' [HX' ->]%lift_Done.
  case_decide; [done|]. apply bind_ext; [done|].
  intros c w3 _. apply IH; [|done]. by eapply shaped_setitem.
Qed.

Lemma generate_word_sampled_tape (min_word_length : nat) (w : world) :
  generate_word np_exp np_random_choice upper model predict VOCAB_SIZE i2c m
    temperature min_word_length w
  = generate_word np_exp tape_choice upper model predict VOCAB_SIZE i2c m
      temperature min_word_length w.
Proof using Hsampled.
  unfold generate_word. rewrite !bind_turns_left.
  apply bind_ext.
  { apply first_index_tape.
    apply (sampled_first _ _ _ _ _ _ _ Hsampled), shaped_zeros. }
  intros ix w' _. apply bind_ext; [done|].
  intros X' w'' [HX' ->]%lift_Done. apply bind_ext; [done|].
  intros c w3 _. apply bind_ext; [|done].
  apply sample_rest_sampled_tape.
  - eapply shaped_setitem; [apply shaped_zeros|done].
  - apply Forall_forall. intros i Hi%elem_of_seq. unfold MAX_WORD_LEN in *. lia.
Qed.

End sampled_tape_facts.

Section run_facts.

Context (np_exp : Np.float → Np.float) (temperature : Np.float).
Context (upper : str → str) (model : Type).
Context (predict : model → tensor Z → tensor Np.float).
Context (VOCAB_SIZE : nat) (i2c : gmap nat char) (m : model).
Context (Hsampled : sampled likely np_exp temperature predict VOCAB_SIZE m).

(** Lines 118-120 have no cap: any number of leading zeros is drawn and
    dropped. *)
Lemma first_index_zeros (turns n ix : nat) (p : list Np.float)
    (rest : list nat) (out : list output) (log : list call) :
  ix ≠ 0 → ix < VOCAB_SIZE → n < turns →
  first_index tape_choice VOCAB_SIZE turns p
    (World (replicate n 0 ++ ix :: rest) out log)
  = Done ix (World rest out log).
Proof.
  intros Hne Hlt. revert turns. induction n as [|n IH]; intros turns Hn.
  - destruct turns as [|turns]; [lia|]. cbn [first_index replicate app].
    rewrite (bind_run _ _ _ (World rest out log) ix).
    + by rewrite decide_False.
    + unfold tape_choice. cbn [rng stdout keras]. by rewrite decide_True.
  - destruct turns as [|turns]; [lia|]. cbn [first_index replicate app].
    rewrite (bind_run _ _ _ (World (replicate n 0 ++ ix :: rest) out log) 0).
    + rewrite decide_True by done. apply IH. lia.
    + unfold tape_choice. cbn [rng stdout keras]. by rewrite decide_True by lia.
Qed.

(** Lines 127-143 when the first draw is accepted. *)
Lemma next_index_keeps (min_word_length : nat) (X : tensor Z) (i ix : nat)
    (rest : list nat) (out : list output) (log : list call) :
  shaped VOCAB_SIZE X → 1 ≤ i ≤ MAX_WORD_LEN → ix < VOCAB_SIZE →
  ix ≠ 0 ∨ min_word_length ≤ i →
  next_index np_exp tape_choice model predict VOCAB_SIZE m temperature
    min_word_length X i (World (ix :: rest) out log)
  = Done ix (World rest out log).
Proof using Hsampled.
  intros HX Hi Hix Hkeep. unfold next_index.
  destruct (sampled_row _ _ _ _ _ _ _ Hsampled X i HX Hi) as (d & -> & _).
  rewrite bind_lift_inr.
  rewrite (bind_run _ _ _ (World rest out log) ix).
  - rewrite bind_turns_left. cbn [rng length resample].
    rewrite decide_False by lia. done.
  - unfold tape_choice. cbn [rng stdout keras]. by rewrite decide_True.
Qed.

(** Lines 126-147 over accepted draws of characters. *)
Lemma sample_rest_run (min_word_length : nat) (ixs : list nat) (cs : str) :
  Forall2 (λ ix c, ix ≠ 0 ∧ ix < VOCAB_SIZE ∧ i2c !! ix = Some c) ixs cs →
  ∀ (a : nat) (more : list nat) (X : tensor Z) (generated_word : list str)
    (rest : list nat) (out : list output) (log : list call),
  shaped VOCAB_SIZE X → 1 ≤ a → a + length ixs ≤ MAX_WORD_LEN →
  ∃ X', shaped VOCAB_SIZE X' ∧
    sample_rest np_exp tape_choice model predict VOCAB_SIZE i2c m temperature
      min_word_length (seq a (length ixs) ++ more) X generated_word
      (World (ixs ++ rest) out log)
    = sample_rest np_exp tape_choice model predict VOCAB_SIZE i2c m temperature
        min_word_length more X' (generated_word ++ ((λ c, [c]) <$> cs))
        (World rest out log).
Proof using Hsampled.
  induction 1 as [|ix c ixs cs (Hne & Hlt & Hc) _ IH];
    intros a more X gw rest out log HX Ha Hlen.
  - exists X. split; [done|]. simpl. by rewrite app_nil_r.
  - cbn [length] in Hlen. cbn [length seq app sample_rest].
    rewrite (bind_run _ _ _ (World (ixs ++ rest) out log) ix)
      by (apply next_index_keeps; [done|lia|done|by left]).
    destruct (setitem_shaped VOCAB_SIZE X a ix 1%Z) as (X1 & -> & HX1);
      [done|lia|done|].
    rewrite bind_lift_inr, decide_False by done.
    unfold dict_get. rewrite Hc, bind_lift_inr.
    destruct (IH (S a) more X1 (gw ++ [[c]]) rest out log) as (X' & HX' & ->);
      [done|lia|lia|].
    exists X'. split; [done|]. rewrite fmap_cons, <- app_assoc. done.
Qed.

Lemma generate_word_run (min_word_length n ix0 : nat) (ixs stop rest : list nat)
    (c0 : char) (cs : str) (out : list output) (log : list call) :
  Forall2 (λ ix c, ix ≠ 0 ∧ ix < VOCAB_SIZE ∧ i2c !! ix = Some c)
    (ix0 :: ixs) (c0 :: cs) →
  (1 + length ixs = MAX_WORD_LEN ∧ stop = [])
  ∨ (1 + length ixs < MAX_WORD_LEN ∧ min_word_length ≤ 1 + length ixs
     ∧ stop = [0]) →
  generate_word np_exp np_random_choice upper model predict VOCAB_SIZE i2c m
    temperature min_word_length
    (World (replicate n 0 ++ ix0 :: ixs ++ stop ++ rest) out log)
  = Done (upper [c0] ++ cs) (World rest out log).
Proof using Hsampled.
  intros Hall Hstop.
  apply Forall2_cons in Hall as [(Hne & Hlt & Hc0) Hall].
  rewrite generate_word_sampled_tape by done.
  unfold generate_word. rewrite bind_turns_left.
  rewrite (bind_run _ _ _ (World (ixs ++ stop ++ rest) out log) ix0); cycle 1.
  { apply first_index_zeros; [done..|].
    cbn [rng]. rewrite length_app, length_replicate. lia. }
  destruct (setitem_shaped VOCAB_SIZE (zeros 1 MAX_WORD_LEN VOCAB_SIZE) 0 ix0
              1%Z) as (X1 & -> & HX1);
    [apply shaped_zeros|unfold MAX_WORD_LEN; lia|done|].
  rewrite bind_lift_inr. unfold dict_get. rewrite Hc0, bind_lift_inr.
  replace (seq 1 (MAX_WORD_LEN - 1))
    with (seq 1 (length ixs)
          ++ seq (1 + length ixs) (MAX_WORD_LEN - 1 - length ixs))
    by (rewrite <- seq_app; f_equal; lia).
  destruct (sample_rest_run min_word_length ixs cs Hall 1
              (seq (1 + length ixs) (MAX_WORD_LEN - 1 - length ixs)) X1
              [upper [c0]] (stop ++ rest) out log) as (X' & HX' & Hrun);
    [done|lia|lia|].
  assert (Hword : concat ([upper [c0]] ++ ((λ c, [c]) <$> cs))
                  = upper [c0] ++ cs).
  { rewrite concat_app, concat_singletons. simpl. by rewrite app_nil_r. }
  destruct Hstop as [[Hlen ->]|(Hlen & Hmin & ->)].
  - rewrite (bind_run _ _ _ (World rest out log)
               ([upper [c0]] ++ ((λ c, [c]) <$> cs))).
    + by rewrite <- Hword.
    + rewrite Hrun. replace (MAX_WORD_LEN - 1 - length ixs) with 0 by lia.
      done.
  - rewrite (bind_run _ _ _ (World rest out log)
               ([upper [c0]] ++ ((λ c, [c]) <$> cs))).
    + by rewrite <- Hword.
    + rewrite Hrun.
      replace (MAX_WORD_LEN - 1 - length ixs)
        with (S (MAX_WORD_LEN - 2 - length ixs)) by lia.
      cbn [seq app sample_rest].
      rewrite (bind_run _ _ _ (World rest out log) 0)
        by (apply next_index_keeps; [done|lia|lia|by right]).
      destruct (setitem_shaped VOCAB_SIZE X' (1 + length ixs) 0 1%Z)
        as (X2 & -> & _); [done|lia|lia|].
      rewrite bind_lift_inr. by rewrite decide_True.
Qed.

End run_facts.

(** X9.  What [generate_word] returns on outcomes that need no
    resampling, where the sampler is given distributions without zeros
    (as it is over exact arithmetic with a well-formed model and a
    temperature above 0): any number of leading draws of index 0 is
    dropped without a message (the loop of line 119 has no cap); then one
    character per outcome is taken, the first one upper-cased, until an
    outcome 0 at a position that is at least [min_word_length] or until
    [MAX_WORD_LEN] characters; nothing is printed and the following
    outcomes are left. *)
Theorem generate_word_reads_outcomes (np_exp : Np.float → Np.float)
    (temperature : Np.float) (upper : str → str) (model : Type)
    (predict : model → tensor Z → tensor Np.float) (words : list str)
    (m : model) (min_word_length n ix0 : nat)
    (ixs stop rest : list nat) (c0 : char) (cs : str)
    (out : list output) (log : list call) :
  sampled likely np_exp temperature predict (length (chars words)) m →
  Forall2 (λ ix c, ix ≠ 0 ∧ chars words !! ix = Some c)
    (ix0 :: ixs) (c0 :: cs) →
  (1 + length ixs = MAX_WORD_LEN ∧ stop = [])
  ∨ (1 + length ixs < MAX_WORD_LEN ∧ min_word_length ≤ 1 + length ixs
     ∧ stop = [0]) →
  generate_word np_exp np_random_choice upper model predict
    (length (chars words)) (ix_to_char (chars words)) m temperature
    min_word_length
    (World (replicate n 0 ++ ix0 :: ixs ++ stop ++ rest) out log)
  = Done (upper [c0] ++ cs) (World rest out log).
Proof.
  intros Hsampled Hall Hstop. apply generate_word_run; [done| |done].
  eapply Forall2_impl; [done|]. intros ix c [Hne Hc]. simpl.
  split; [done|]. split; [by apply lookup_lt_Some in Hc|].
  by rewrite ix_to_char_lookup.
Qed.

Lemma generate_word_reads_outcomes_witness :
  generate_word Np.exp np_random_choice latin1_upper unit uniform_predict
    (length (chars cat_car_cap)) (ix_to_char (chars cat_car_cap)) ()
    (Np.Fin 1) 3
    (World (replicate 2 0 ++ 2 :: [1; 5] ++ [0] ++ [3]) [] [])
  = Done (latin1_upper [99%N] ++ [97; 116]%N) (World [3] [] []).
Proof.
  apply (generate_word_reads_outcomes Np.exp (Np.Fin 1) latin1_upper unit
           uniform_predict cat_car_cap () 3 2 2 [1; 5] [0] [3] 99%N
           [97; 116]%N [] []).
  - apply well_formed_sampled; [|lra].
    apply well_formed_uniform. vm_compute. lia.
  - repeat constructor; (lia || (vm_compute; reflexivity)).
  - right. simpl. unfold MAX_WORD_LEN. split; [lia|]. split; [lia|done].
Defined.

(** ** The generator goes on while outcomes are left *)

Section progress_facts.

Lemma bind_runs_on {A B} (n : nat) (m : M A) (f : A → M B) (w : world) :
  runs_on n (m w) →
  (∀ a w', m w = Done a w' → runs_on n (f a w')) →
  runs_on n ((m ≫= f) w).
Proof.
  intros Hm Hf. unfold mbind, M_bind.
  destruct (m w) as [a w'|e w'|w']; [by apply Hf|done..].
Qed.

Lemma tape_choice_runs_on (n : nat) (p : list Np.float) (w : world) :
  runs_on n (tape_choice n p w).
Proof.
  unfold tape_choice. destruct (rng w) as [|ix tl] eqn:Hrng; simpl.
  - by rewrite Hrng.
  - case_decide; simpl; [done|]. rewrite Hrng. intros ? [= <-]. lia.
Qed.

Lemma tape_choice_Done (n : nat) (p : list Np.float) (w w' : world) (ix : nat) :
  tape_choice n p w = Done ix w' → ix < n ∧ rng w = ix :: rng w'.
Proof.
  intros H. pose proof (tape_choice_sampler n p w) as Hs. rewrite H in Hs.
  by destruct Hs as (? & ? & _).
Qed.

Context (np_exp : Np.float → Np.float) (temperature : Np.float).
Context (upper : str → str) (model : Type).
Context (predict : model → tensor Z → tensor Np.float).
Context (VOCAB_SIZE : nat) (i2c : gmap nat char) (m : model).
Context (Hsampled : sampled likely np_exp temperature predict VOCAB_SIZE m).
Context (Hi2c : ∀ ix, ix < VOCAB_SIZE → is_Some (i2c !! ix)).

Lemma first_index_runs_on (turns : nat) (p : list Np.float) (w : world) :
  length (rng w) < turns →
  runs_on VOCAB_SIZE (first_index tape_choice VOCAB_SIZE turns p w).
Proof.
  revert w. induction turns as [|turns IH]; intros w Hturns; [lia|].
  simpl. apply bind_runs_on; [apply tape_choice_runs_on|].
  intros ix w' [_ Hrng]%tape_choice_Done. rewrite Hrng in Hturns.
  case_decide; [|done]. apply IH. simpl in Hturns. lia.
Qed.

Lemma resample_runs_on (turns i min_word_length : nat) (p : list Np.float)
    (ix0 ctr : nat) (w : world) :
  length (rng w) < turns →
  runs_on VOCAB_SIZE
    (resample tape_choice VOCAB_SIZE turns i min_word_length p ix0 ctr w).
Proof.
  revert ix0 ctr w. induction turns as [|turns IH]; intros ix0 ctr w Hturns;
    [lia|].
  simpl. case_decide; [|done].
  apply bind_runs_on; [apply tape_choice_runs_on|].
  intros ix w' [_ Hrng]%tape_choice_Done. rewrite Hrng in Hturns.
  case_decide; [done|]. apply IH. simpl in Hturns. lia.
Qed.

Lemma next_index_runs_on (min_word_length : nat) (X : tensor Z) (i : nat)
    (w : world) :
  shaped VOCAB_SIZE X → 1 ≤ i ≤ MAX_WORD_LEN →
  runs_on VOCAB_SIZE
    (next_index np_exp tape_choice model predict VOCAB_SIZE m temperature
       min_word_length X i w).
Proof using Hsampled.
  intros HX Hi. unfold next_index.
  destruct (sampled_row _ _ _ _ _ _ _ Hsampled X i HX Hi) as (d & -> & _).
  rewrite bind_lift_inr.
  apply bind_runs_on; [apply tape_choice_runs_on|].
  intros ix w' _. rewrite bind_turns_left. apply resample_runs_on. lia.
Qed.

Lemma sample_rest_runs_on (min_word_length : nat) (ixs : list nat)
    (X : tensor Z) (generated_word : list str) (w : world) :
  shaped VOCAB_SIZE X → Forall (λ i, 1 ≤ i < MAX_WORD_LEN) ixs →
  runs_on VOCAB_SIZE
    (sample_rest np_exp tape_choice model predict VOCAB_SIZE i2c m temperature
       min_word_length ixs X generated_word w).
Proof using Hsampled Hi2c.
  revert X generated_word w.
  induction ixs as [|i ixs IH]; intros X gw w HX Hixs; [done|].
  inversion Hixs as [|? ? Hi Hrest]; subst. simpl.
  apply bind_runs_on; [apply next_index_runs_on; [done|lia]|].
  intros ix w1 Hix.
  apply (next_index_spec _ _ _ _ _ tape_choice_sampler) in Hix as (Hix & _).
  destruct (setitem_shaped VOCAB_SIZE X i ix 1%Z) as (X' & -> & HX');
    [done|lia|done|].
  rewrite bind_lift_inr. case_decide; [done|].
  destruct (Hi2c ix Hix) as [c Hc]. unfold dict_get. rewrite Hc.
  rewrite bind_lift_inr. by apply IH.
Qed.

Lemma generate_word_runs_on (min_word_length : nat) (w : world) :
  runs_on VOCAB_SIZE
    (generate_word np_exp np_random_choice upper model predict VOCAB_SIZE i2c
       m temperature min_word_length w).
Proof using Hsampled Hi2c.
  rewrite generate_word_sampled_tape by done.
  unfold generate_word. rewrite bind_turns_left.
  apply bind_runs_on; [apply first_index_runs_on; lia|].
  intros ix w1 Hix.
  apply (first_index_spec _ _ tape_choice_sampler) in Hix as (_ & Hix & _).
  destruct (setitem_shaped VOCAB_SIZE (zeros 1 MAX_WORD_LEN VOCAB_SIZE) 0 ix
              1%Z) as (X' & -> & HX');
    [apply shaped_zeros|unfold MAX_WORD_LEN; lia|done|].
  rewrite bind_lift_inr.
  destruct (Hi2c ix Hix) as [c Hc]. unfold dict_get. rewrite Hc.
  rewrite bind_lift_inr.
  apply bind_runs_on; [|done].
  apply sample_rest_runs_on; [done|].
  apply Forall_forall. intros i Hi%elem_of_seq. unfold MAX_WORD_LEN in *. lia.
Qed.

End progress_facts.

(** X10.  Where the sampler is given distributions without zeros (as it
    is over exact arithmetic with a well-formed model and a temperature
    above 0), [generate_word] over the vocabulary of a word list raises
    nothing (no [ValueError] of the sampler, no [IndexError] of [X], no
    [KeyError] of [ix_to_char]) and goes on as long as the next outcome is
    an index of the vocabulary: it either returns a word or stops where
    no such outcome is left. *)
Theorem generate_word_progress (np_exp : Np.float → Np.float)
    (temperature : Np.float) (upper : str → str) (model : Type)
    (predict : model → tensor Z → tensor Np.float) (words : list str)
    (m : model) (min_word_length : nat) (w : world) :
  sampled likely np_exp temperature predict (length (chars words)) m →
  runs_on (length (chars words))
    (generate_word np_exp np_random_choice upper model predict
       (length (chars words)) (ix_to_char (chars words)) m temperature
       min_word_length w).
Proof.
  intros Hsampled. apply generate_word_runs_on; [done|].
  intros ix Hix. rewrite ix_to_char_lookup. by apply lookup_lt_is_Some.
Qed.

Lemma generate_word_progress_witness :
  runs_on (length (chars cat_car_cap))
    (generate_word Np.exp np_random_choice latin1_upper unit uniform_predict
       (length (chars cat_car_cap)) (ix_to_char (chars cat_car_cap)) ()
       (Np.Fin 1) 4 (tape [2; 1; 0; 0; 7])).
Proof.
  apply generate_word_progress.
  apply well_formed_sampled; [|lra].
  apply well_formed_uniform. vm_compute. lia.
Defined.

(** ** Training: what [fit] prints and draws *)

Section training_facts.

Context (np_exp : Np.float → Np.float) (choice : nat → list Np.float → M nat).
Context (upper : str → str) (model : Type).
Context (predict : model → tensor Z → tensor Np.float).
Context (train_epoch : model → tensor Z → tensor Z → nat → model).
Context (VOCAB_SIZE : nat) (i2c : gmap nat char).

Lemma on_epoch_end_silent (args : arguments) (m : model) (epoch : nat)
    (w : world) :
  verbose args = false →
  on_epoch_end np_exp choice upper model predict VOCAB_SIZE i2c args m epoch w
  = Done () w.
Proof. intros Hv. unfold on_epoch_end. by rewrite Hv, andb_false_r. Qed.

Lemma fit_epochs_silent (args : arguments) (X Y : tensor Z) (batch_size : nat)
    (epochs : list nat) (m : model) (w : world) :
  verbose args = false →
  fit_epochs np_exp choice upper model predict train_epoch VOCAB_SIZE i2c args
    X Y batch_size epochs m w
  = Done (Nat.iter (length epochs) (λ m, train_epoch m X Y batch_size) m)
      (World (rng w) (stdout w) (keras w ++ (TrainEpoch <$> epochs))).
Proof.
  intros Hv. revert m w. induction epochs as [|epoch epochs IH]; intros m w.
  - simpl. rewrite app_nil_r. by destruct w.
  - rewrite fit_epochs_cons.
    rewrite (bind_run _ _ _ _ () (on_epoch_end_silent _ _ _ _ Hv)).
    rewrite IH. cbn [rng stdout keras length].
    rewrite Nat.iter_succ_r, fmap_cons, <- app_assoc. done.
Qed.

Context (Hchoice : sampler choice).

(** What a completed [fit] over the epochs has printed: one progress line
    for every epoch that is a multiple of 50 when [--verbose] is given,
    and no word of the final listing. *)
Lemma fit_epochs_output (args : arguments) (X Y : tensor Z) (batch_size : nat)
    (epochs : list nat) (m m' : model) (w w' : world) :
  fit_epochs np_exp choice upper model predict train_epoch VOCAB_SIZE i2c args
    X Y batch_size epochs m w = Done m' w' →
  ∃ out, stdout w' = stdout w ++ out ∧ words_printed out = [] ∧
    epochs_printed out
    = if verbose args then filter (λ e, e `mod` 50 = 0) epochs else [].
Proof using Hchoice.
  revert m w. induction epochs as [|epoch epochs IH]; intros m w H.
  - injection H as _ <-. exists []. rewrite app_nil_r.
    by destruct (verbose args).
  - rewrite fit_epochs_cons in H.
    apply bind_Done in H as (u & w1 & Hend & H).
    apply IH in H as (out & Hout & Hwords & Hepochs).
    unfold on_epoch_end in Hend. rewrite filter_cons.
    destruct (decide (epoch `mod` 50 = 0)) as [Hmod|Hmod].
    + rewrite bool_decide_eq_true_2 in Hend by done.
      destruct (verbose args); simpl in Hend.
      * apply bind_Done in Hend as (word & w0 & Hword & Hprint).
        apply (generate_word_spec _ _ _ _ _ _ _ Hchoice) in Hword
          as (_ & _ & k & _ & _ & _ & _ & Hout0 & _).
        unfold print in Hprint. injection Hprint as _ <-. simpl in Hout.
        rewrite Hout0 in Hout. simpl in Hout.
        exists (replicate k PrintStuck ++ [PrintEpoch epoch word] ++ out).
        split; [by rewrite Hout, <- !app_assoc|].
        assert (Hw : words_printed (replicate k PrintStuck) = [])
          by (clear; induction k; done).
        assert (He : epochs_printed (replicate k PrintStuck) = [])
          by (clear; induction k; done).
        unfold words_printed, epochs_printed in *.
        rewrite !omap_app, Hw, He, Hwords, Hepochs. done.
      * injection Hend as _ <-. simpl in Hout. by exists out.
    + rewrite bool_decide_eq_false_2 in Hend by done. simpl in Hend.
      injection Hend as _ <-. simpl in Hout. exists out.
      split; [done|]. split; [done|]. by destruct (verbose args).
Qed.

End training_facts.

(** X11.  Without [--verbose], [model.fit] as the script calls it draws
    no random outcome and prints nothing: it returns the model trained for
    all the epochs, one after the other, whatever the sampler and the
    model are. *)
Theorem fit_without_verbose (np_exp : Np.float → Np.float)
    (upper : str → str) (model : Type)
    (predict : model → tensor Z → tensor Np.float)
    (train_epoch : model → tensor Z → tensor Z → nat → model)
    (VOCAB_SIZE : nat) (i2c : gmap nat char) (args : arguments) (m : model)
    (X Y : tensor Z) (batch_size epochs : nat) (w : world) :
  verbose args = false →
  fit np_exp np_random_choice upper model predict train_epoch VOCAB_SIZE i2c
    args m X Y batch_size epochs w
  = Done (Nat.iter epochs (λ m, train_epoch m X Y batch_size) m)
      (World (rng w) (stdout w)
         (keras w ++ Fit batch_size epochs :: (TrainEpoch <$> seq 0 epochs))).
Proof.
  intros Hv. rewrite fit_unfold, fit_epochs_silent by done.
  cbn [rng stdout keras]. by rewrite length_seq, <- app_assoc.
Qed.

Lemma fit_without_verbose_witness :
  fit Np.exp np_random_choice latin1_upper unit uniform_predict uniform_train
    6 (ix_to_char (chars cat_car_cap))
    (Arguments [119%N] None None (Np.Fin 1) 2 100 false) () [] [] 64 3
    (tape [2; 1])
  = Done (Nat.iter 3 (λ m, uniform_train m [] [] 64) ())
      (World (rng (tape [2; 1])) (stdout (tape [2; 1]))
         (keras (tape [2; 1]) ++ Fit 64 3 :: (TrainEpoch <$> seq 0 3))).
Proof. apply fit_without_verbose. reflexivity. Defined.

(** X12.  When [fit] completes, the progress lines it has printed are
    those of the epochs that are multiples of 50, in order, if [--verbose]
    is given, and none otherwise; it prints no other word. *)
Theorem fit_reports_every_50 (np_exp : Np.float → Np.float)
    (upper : str → str) (model : Type)
    (predict : model → tensor Z → tensor Np.float)
    (train_epoch : model → tensor Z → tensor Z → nat → model)
    (VOCAB_SIZE : nat) (i2c : gmap nat char) (args : arguments) (m m' : model)
    (X Y : tensor Z) (batch_size epochs : nat) (w w' : world) :
  fit np_exp np_random_choice upper model predict train_epoch VOCAB_SIZE i2c
    args m X Y batch_size epochs w = Done m' w' →
  ∃ out, stdout w' = stdout w ++ out ∧ words_printed out = [] ∧
    epochs_printed out
    = if verbose args then filter (λ e, e `mod` 50 = 0) (seq 0 epochs)
      else [].
Proof.
  rewrite fit_unfold. intros H.
  by apply (fit_epochs_output _ _ _ _ _ _ _ _ np_random_choice_sampler) in H.
Qed.

(** ** Following a whole run on the tape *)

Section script_tape_facts.

Context (upper : str → str) (model : Type).
Context (predict : model → tensor Z → tensor Np.float).
Context (train_epoch : model → tensor Z → tensor Z → nat → model).
Context (VOCAB_SIZE : nat) (i2c : gmap nat char).
Context (Hmodels : ∀ m, well_formed predict VOCAB_SIZE m).

Lemma on_epoch_end_tape (args : arguments) (m : model) (epoch : nat)
    (w : world) :
  on_epoch_end Np.exp np_random_choice upper model predict VOCAB_SIZE i2c args
    m epoch w
  = on_epoch_end Np.exp tape_choice upper model predict VOCAB_SIZE i2c args m
      epoch w.
Proof using Hmodels.
  unfold on_epoch_end. destruct (_ && _); [|done].
  apply bind_ext; [|done]. apply generate_word_tape; [done|lra].
Qed.

Lemma fit_epochs_tape (args : arguments) (X Y : tensor Z) (batch_size : nat)
    (epochs : list nat) (m : model) (w : world) :
  fit_epochs Np.exp np_random_choice upper model predict train_epoch
    VOCAB_SIZE i2c args X Y batch_size epochs m w
  = fit_epochs Np.exp tape_choice upper model predict train_epoch VOCAB_SIZE
      i2c args X Y batch_size epochs m w.
Proof using Hmodels.
  revert m w. induction epochs as [|epoch epochs IH]; intros m w; [done|].
  rewrite !fit_epochs_cons. apply bind_ext; [apply on_epoch_end_tape|].
  intros _ w' _. apply IH.
Qed.

Lemma fit_tape (args : arguments) (m : model) (X Y : tensor Z)
    (batch_size epochs : nat) (w : world) :
  fit Np.exp np_random_choice upper model predict train_epoch VOCAB_SIZE i2c
    args m X Y batch_size epochs w
  = fit Np.exp tape_choice upper model predict train_epoch VOCAB_SIZE i2c args
      m X Y batch_size epochs w.
Proof using Hmodels. rewrite !fit_unfold. apply fit_epochs_tape. Qed.

End script_tape_facts.

Lemma main_tape (upper : str → str) (model : Type)
    (predict : model → tensor Z → tensor Np.float)
    (train_epoch : model → tensor Z → tensor Z → nat → model)
    (Sequential : nat → model) (load_model : str → except model)
    (text_to_words : str → list str) (args : arguments) (t : R) (w : world) :
  (∀ m, well_formed predict (length (chars (text_to_words (wordlist args)))) m) →
  temperature args = Np.Fin t → (0 < t)%R →
  main Np.exp np_random_choice upper model predict train_epoch Sequential
    load_model text_to_words args w
  = main Np.exp tape_choice upper model predict train_epoch Sequential
      load_model text_to_words args w.
Proof.
  intros Hmodels Htemperature Ht. unfold main. rewrite Htemperature.
  apply bind_ext; [done|]. intros _ w1 _.
  apply bind_ext; [done|]. intros XY w2 _.
  apply bind_ext.
  - destruct (modelpath args); [done|].
    apply bind_ext; [by apply fit_tape|done].
  - intros m w3 _. by apply print_words_tape.
Qed.

Lemma fit_reports_every_50_witness :
  ∃ out,
    stdout (World [] [PrintEpoch 0 [67; 97; 116; 97]%N;
                      PrintEpoch 50 [67; 97; 116; 97]%N]
              (Fit 64 51 :: (TrainEpoch <$> seq 0 51)))
    = stdout (tape [2; 1; 5; 1; 0; 2; 1; 5; 1; 0]) ++ out ∧
    words_printed out = [] ∧
    epochs_printed out
    = if verbose (Arguments [119%N] None None (Np.Fin 1) 2 100 true)
      then filter (λ e, e `mod` 50 = 0) (seq 0 51) else [].
Proof.
  apply (fit_reports_every_50 Np.exp latin1_upper unit uniform_predict
           uniform_train (length (chars cat_car_cap))
           (ix_to_char (chars cat_car_cap))
           (Arguments [119%N] None None (Np.Fin 1) 2 100 true) () ()
           [] [] 64 51 (tape [2; 1; 5; 1; 0; 2; 1; 5; 1; 0])).
  rewrite fit_tape.
  - vm_compute. reflexivity.
  - intros []. apply well_formed_uniform. vm_compute. lia.
Defined.

(** ** The script: failures and the words of a run *)

(** X13.  A model that cannot be loaded ends the run with the exception
    of [load_model]: the loading is the only Keras call, so there is no
    training in its place, and apart from the corpus report under
    [--verbose] nothing is printed and no outcome is drawn. *)
Theorem load_failure_ends_run (np_exp : Np.float → Np.float)
    (upper : str → str) (model : Type)
    (predict : model → tensor Z → tensor Np.float)
    (train_epoch : model → tensor Z → tensor Z → nat → model)
    (Sequential : nat → model) (load_model : str → except model)
    (text_to_words : str → list str)
    (args : arguments) (path : str) (e : exn) (w : world) :
  modelpath args = Some path → load_model path = inl e →
  main np_exp np_random_choice upper model predict train_epoch Sequential
    load_model text_to_words args w
  = Raised e
      (World (rng w)
         (stdout w ++
          if verbose args
          then [PrintCorpus (length (text_to_words (wordlist args)))
                  (chars (text_to_words (wordlist args)))
                  (take 2 (text_to_words (wordlist args)))]
          else [])
         (keras w ++ [Load path])).
Proof.
  intros Hpath Hload.
  rewrite (main_load np_exp np_random_choice upper model predict train_epoch
             Sequential load_model text_to_words args path w Hpath).
  rewrite Hload. unfold mbind, M_bind.
  destruct (verbose args); simpl; [done|]. by rewrite app_nil_r.
Qed.

Lemma load_failure_ends_run_witness :
  main Np.exp np_random_choice latin1_upper unit uniform_predict uniform_train
    (λ _, ()) (λ _, inl OSError) (λ _, cat_car_cap) load_and_save
    (tape [2; 1; 5; 0])
  = Raised OSError
      (World (rng (tape [2; 1; 5; 0]))
         (stdout (tape [2; 1; 5; 0]) ++
          if verbose load_and_save
          then [PrintCorpus (length cat_car_cap) (chars cat_car_cap)
                  (take 2 cat_car_cap)]
          else [])
         (keras (tape [2; 1; 5; 0]) ++ [Load [109%N]])).
Proof.
  apply (load_failure_ends_run Np.exp latin1_upper unit uniform_predict
           uniform_train (λ _, ()) (λ _, inl OSError) (λ _, cat_car_cap)
           load_and_save [109%N] OSError (tape [2; 1; 5; 0])).
  - reflexivity.
  - reflexivity.
Defined.

(** X14.  The temperature is first used after training: a run without
    [--verbose] that trains and is asked for words at temperature 0 goes
    through all [NUM_EPOCHS] epochs, saves the model if a save path is
    given, and only then ends with the [ValueError] of the sampler, with
    no word printed. *)
Theorem zero_temperature_fails_after_training (upper : str → str)
    (model : Type) (predict : model → tensor Z → tensor Np.float)
    (train_epoch : model → tensor Z → tensor Z → nat → model)
    (Sequential : nat → model) (load_model : str → except model)
    (text_to_words : str → list str) (args : arguments) (w : world) :
  modelpath args = None → verbose args = false →
  temperature args = Np.Fin 0 → (0 < nwords args)%Z →
  (∀ m, well_formed predict (length (chars (text_to_words (wordlist args)))) m) →
  main Np.exp np_random_choice upper model predict train_epoch Sequential
    load_model text_to_words args w
  = Raised ValueError
      (World (rng w) (stdout w)
         (keras w ++ Fit BATCH_SIZE NUM_EPOCHS
                     :: (TrainEpoch <$> seq 0 NUM_EPOCHS)
                     ++ match savepath args with
                        | Some path => [Save path]
                        | None => []
                        end)).
Proof.
  intros Hpath Hverbose Htemperature Hn Hmodels.
  destruct (main_fit Np.exp np_random_choice upper model predict train_epoch
              Sequential load_model text_to_words args w Hpath)
    as (X & Y & _ & ->).
  rewrite Hverbose, Htemperature.
  destruct (Z.to_nat (nwords args)) as [|n] eqn:Hwords; [lia|].
  generalize NUM_EPOCHS. intros epochs.
  rewrite (bind_run _ _ _ w ()) by done.
  erewrite bind_run; cycle 1.
  { rewrite fit_unfold. by apply fit_epochs_silent. }
  cbn [rng stdout keras]. rewrite length_seq.
  destruct (savepath args) as [save|].
  - erewrite bind_run by reflexivity. cbn [print_words rng stdout keras].
    unfold mbind at 1, M_bind at 1. rewrite generate_word_nan by done.
    by rewrite <- !app_assoc.
  - erewrite bind_run by reflexivity. cbn [print_words].
    unfold mbind at 1, M_bind at 1. rewrite generate_word_nan by done.
    by rewrite <- !app_assoc, app_nil_r.
Qed.

Lemma zero_temperature_fails_after_training_witness :
  main Np.exp np_random_choice latin1_upper unit uniform_predict uniform_train
    (λ _, ()) uniform_load (λ _, cat_car_cap)
    (Arguments [119%N] (Some [115%N]) None (Np.Fin 0) 2 100 false)
    (tape [2; 1; 5; 0])
  = Raised ValueError
      (World (rng (tape [2; 1; 5; 0])) (stdout (tape [2; 1; 5; 0]))
         (keras (tape [2; 1; 5; 0])
          ++ Fit BATCH_SIZE NUM_EPOCHS
             :: (TrainEpoch <$> seq 0 NUM_EPOCHS)
             ++ match savepath (Arguments [119%N] (Some [115%N]) None
                                  (Np.Fin 0) 2 100 false) with
                | Some path => [Save path]
                | None => []
                end)).
Proof.
  apply (zero_temperature_fails_after_training latin1_upper unit
           uniform_predict uniform_train (λ _, ()) uniform_load
           (λ _, cat_car_cap)
           (Arguments [119%N] (Some [115%N]) None (Np.Fin 0) 2 100 false)
           (tape [2; 1; 5; 0])).
  - reflexivity.
  - reflexivity.
  - reflexivity.
  - simpl. lia.
  - intros []. apply well_formed_uniform. vm_compute. lia.
Defined.

(** The lines that [print_words n] has printed when it returns. *)
Lemma print_words_lines (np_exp : Np.float → Np.float) (upper : str → str)
    (model : Type) (predict : model → tensor Z → tensor Np.float)
    (VOCAB_SIZE : nat) (i2c : gmap nat char) (m : model)
    (temperature : Np.float) (n : nat) (w w' : world) :
  print_words np_exp np_random_choice upper model predict VOCAB_SIZE i2c m
    temperature n w = Done () w' →
  ∃ out, stdout w' = stdout w ++ out ∧ length (words_printed out) = n ∧
    epochs_printed out = [].
Proof.
  revert w. induction n as [|n IH]; intros w H; simpl in H.
  - injection H as <-. exists []. by rewrite app_nil_r.
  - apply bind_Done in H as (word & w1 & Hword & H).
    apply (generate_word_spec _ _ _ _ _ _ _ np_random_choice_sampler) in Hword
      as (_ & _ & k & _ & _ & _ & _ & Hout & _).
    apply bind_Done in H as (u & w2 & Hprint & H).
    unfold print in Hprint. injection Hprint as _ <-.
    apply IH in H as (out & Hout' & Hlen & Hepochs). simpl in Hout'.
    exists (replicate k PrintStuck ++ [PrintWord word] ++ out).
    assert (Hw : words_printed (replicate k PrintStuck) = [])
      by (clear; induction k; done).
    assert (He : epochs_printed (replicate k PrintStuck) = [])
      by (clear; induction k; done).
    split; [by rewrite Hout', Hout, <- !app_assoc|].
    unfold words_printed, epochs_printed in *.
    rewrite !omap_app, !length_app, Hw, He, Hlen, Hepochs. done.
Qed.

(** X15.  What a completed run has printed, with or without a load path:
    as many words as [--nwords] asks for (none for a negative count), and
    as progress lines those of the epochs 0, 50, ..., 450 when the run
    trains under [--verbose], none otherwise. *)
Theorem main_prints (np_exp : Np.float → Np.float) (upper : str → str)
    (model : Type) (predict : model → tensor Z → tensor Np.float)
    (train_epoch : model → tensor Z → tensor Z → nat → model)
    (Sequential : nat → model) (load_model : str → except model)
    (text_to_words : str → list str) (args : arguments) (w w' : world) :
  main np_exp np_random_choice upper model predict train_epoch Sequential
    load_model text_to_words args w = Done () w' →
  ∃ out, stdout w' = stdout w ++ out ∧
    length (words_printed out) = Z.to_nat (nwords args) ∧
    epochs_printed out
    = match modelpath args with
      | None =>
          if verbose args
          then filter (λ e, e `mod` 50 = 0) (seq 0 NUM_EPOCHS) else []
      | Some _ => []
      end.
Proof.
  intros H.
  assert (Hpre : ∀ w1,
    (if verbose args
     then print (PrintCorpus (length (text_to_words (wordlist args)))
                   (chars (text_to_words (wordlist args)))
                   (take 2 (text_to_words (wordlist args))))
     else mret ()) w = Done () w1 →
    ∃ pre, stdout w1 = stdout w ++ pre ∧ words_printed pre = []
           ∧ epochs_printed pre = []).
  { intros w1 Hw1. destruct (verbose args).
    - unfold print in Hw1. injection Hw1 as <-. by eexists [_].
    - injection Hw1 as <-. exists []. by rewrite app_nil_r. }
  destruct (modelpath args) as [path|] eqn:Hpath.
  - rewrite (main_load np_exp np_random_choice upper model predict train_epoch
               Sequential load_model text_to_words args path w Hpath) in H.
    apply bind_Done in H as ([] & w1 & Hw1 & H).
    apply Hpre in Hw1 as (pre & Hout1 & Hwords1 & Hepochs1).
    apply bind_Done in H as (u & w2 & Hrec & H).
    unfold record in Hrec. injection Hrec as _ <-.
    apply bind_Done in H as (m & w3 & [_ ->]%lift_Done & H).
    apply print_words_lines in H as (out & Hout & Hlen & Hepochs).
    simpl in Hout. exists (pre ++ out).
    split; [by rewrite Hout, Hout1, <- app_assoc|].
    unfold words_printed, epochs_printed in *.
    rewrite !omap_app, length_app, Hwords1, Hepochs1, Hepochs. done.
  - destruct (main_fit np_exp np_random_choice upper model predict train_epoch
                Sequential load_model text_to_words args w Hpath)
      as (X & Y & _ & Hmain).
    rewrite Hmain in H. clear Hmain. revert H. generalize NUM_EPOCHS.
    intros epochs H.
    apply bind_Done in H as ([] & w1 & Hw1 & H).
    apply Hpre in Hw1 as (pre & Hout1 & Hwords1 & Hepochs1).
    apply bind_Done in H as (m & w2 & Hfit & H).
    rewrite fit_unfold in Hfit.
    apply (fit_epochs_output _ _ _ _ _ _ _ _ np_random_choice_sampler) in Hfit
      as (out2 & Hout2 & Hwords2 & Hepochs2).
    simpl in Hout2.
    apply bind_Done in H as (u & w3 & Hsave & H).
    assert (Hout3 : stdout w3 = stdout w2).
    { destruct (savepath args).
      - unfold record in Hsave. by injection Hsave as _ <-.
      - by injection Hsave as _ <-. }
    apply print_words_lines in H as (out & Hout & Hlen & Hepochs).
    exists (pre ++ out2 ++ out).
    split; [by rewrite Hout, Hout3, Hout2, Hout1, <- !app_assoc|].
    unfold words_printed, epochs_printed in *.
    rewrite !omap_app, !length_app, Hwords1, Hwords2, Hepochs1, Hepochs2,
      Hepochs, app_nil_r. done.
Qed.

Lemma main_prints_witness :
  ∃ out,
    stdout (World []
              (PrintCorpus 3 (chars cat_car_cap) (take 2 cat_car_cap)
               :: ((λ k, PrintEpoch (50 * k) [67; 97; 116; 97]%N) <$> seq 0 10)
               ++ [PrintWord [67; 97; 116; 97]%N;
                   PrintWord [67; 97; 116; 97]%N])
              (Fit 64 500 :: (TrainEpoch <$> seq 0 500)))
    = stdout (tape (concat (replicate 12 [2; 1; 5; 1; 0]))) ++ out ∧
    length (words_printed out)
    = Z.to_nat (nwords (Arguments [119%N] None None (Np.Fin 1) 2 100 true)) ∧
    epochs_printed out
    = match modelpath (Arguments [119%N] None None (Np.Fin 1) 2 100 true) with
      | None =>
          if verbose (Arguments [119%N] None None (Np.Fin 1) 2 100 true)
          then filter (λ e, e `mod` 50 = 0) (seq 0 NUM_EPOCHS) else []
      | Some _ => []
      end.
Proof.
  apply (main_prints Np.exp latin1_upper unit uniform_predict uniform_train
           (λ _, ()) uniform_load (λ _, cat_car_cap)
           (Arguments [119%N] None None (Np.Fin 1) 2 100 true)
           (tape (concat (replicate 12 [2; 1; 5; 1; 0])))).
  rewrite (main_tape _ _ _ _ _ _ _ _ 1).
  - vm_compute. reflexivity.
  - intros []. apply well_formed_uniform. vm_compute. lia.
  - reflexivity.
  - lra.
Defined.

(** ** The temperature sampler on vectors that are not normalised, over
    exact arithmetic *)

Lemma sharpen_mult (t c x : R) :
  (0 < c)%R → (0 <= x)%R →
  sharpen t (c * x) = (sharpen t x * sharpen t c)%R.
Proof.
  intros Hc Hx. destruct (decide (0 < x)%R) as [Hpos|Hzero].
  - assert (0 < c * x)%R by (by apply Rmult_lt_0_compat).
    rewrite !sharpen_exp by done. rewrite ln_mult by done.
    rewrite <- exp_plus. f_equal. unfold Rdiv. lra.
  - replace x with 0%R by lra. rewrite Rmult_0_r, sharpen_zero. lra.
Qed.

(** X16.  Over exact arithmetic, [temp_scale] does not depend on the
    scale of its input: a probability vector multiplied by [c > 0] is
    scaled to the same distribution as the vector itself. *)
Theorem temp_scale_normalises (p : list R) (c t : R) :
  probability_vector p → (0 < c)%R → (0 < t)%R →
  temp_scale Np.exp (fin (map (λ x, c * x)%R p)) (Np.Fin t)
  = temp_scale Np.exp (fin p) (Np.Fin t).
Proof.
  intros Hp Hc Ht. rewrite (temp_scale_fin t p) by done.
  pose proof (sharpened_mass t p Hp) as HS.
  pose proof (sharpen_pos t c Hc) as Hk.
  assert (Hentries : map (sharpen t) (map (λ x, c * x)%R p)
                     = map (λ y, y * sharpen t c)%R (map (sharpen t) p)).
  { rewrite !map_map. apply map_ext_in. intros x Hx%list_elem_of_In.
    apply sharpen_mult; [done|].
    destruct Hp as [Hnn _]. by eapply Forall_forall in Hnn. }
  destruct (temp_scale_closed Np.exp (sharpen t) t (map (λ x, c * x)%R p))
    as [-> _].
  - apply Forall_fmap, Forall_forall. intros x Hx. unfold compose.
    apply scale_entry; [done|]. apply Rmult_le_pos; [lra|].
    destruct Hp as [Hnn _]. by eapply Forall_forall in Hnn.
  - apply sharpen_nonneg.
  - rewrite Hentries, Rsum_mult. by apply Rmult_lt_0_compat.
  - rewrite Hentries, Rsum_mult. unfold fin. f_equal.
    rewrite map_map. apply map_ext. intros y. field. lra.
Qed.

Lemma temp_scale_normalises_witness :
  temp_scale Np.exp (fin (map (λ x, 3 * x)%R [(1/4)%R; (3/4)%R; 0%R]))
    (Np.Fin (1/2))
  = temp_scale Np.exp (fin [(1/4)%R; (3/4)%R; 0%R]) (Np.Fin (1/2)).
Proof.
  apply temp_scale_normalises.
  - split; [repeat constructor; lra | simpl; lra].
  - lra.
  - lra.
Defined.
